(** * SymSpell: a shallow embedding of [symspell.js]

    The development follows the source file top to bottom:
    the three word records and their shared [equals], the engine record,
    [computePermutations], [wordListContains], [addOrTerminateEarly],
    [distance], [realEditDistance], [addWord] and [lookup].

    Conventions.
    - A JavaScript string is a [string]; its characters stand for UTF-16
      code units, which the program only ever compares for equality.
    - Numbers are integers ([Z]); array indices and loop counters are [nat].
    - [this.dictionary] is a plain object used as a map from strings to
      [DictionaryItem]s.  Its own properties are a
      [gmap string DictionaryItem.t]; a read [this.dictionary[key]] also
      finds the members inherited from [Object.prototype] ([read] below).
    - Objects are records.  Where the program compares object references
      ([Array.prototype.indexOf] in [computePermutations]) the objects carry
      an explicit reference. *)

From Stdlib Require Import ZArith Lia Ascii String.
From stdpp Require Import base option list sorting gmap strings.

Local Open Scope Z_scope.

(** ** Strings *)

Module Js.

(** [s.slice(start, stop)] for [0 <= start], [0 <= stop]. *)
Definition slice (s : string) (start stop : nat) : string :=
String.substring start (stop - start) s.

(** [s.slice(start)]. *)
Definition slice_from (s : string) (start : nat) : string :=
String.substring start (String.length s - start) s.

(** [s[i]]; [None] is [undefined]. *)
Definition char_at (s : string) (i : nat) : option ascii := String.get i s.

(** Truthiness of a string: only the empty string is falsy. *)
Definition truthy (s : string) : bool := negb (String.eqb s "").

End Js.

(** ** The word records (source lines 216-241) *)

Inductive Mode : Type := TOP | SMALLEST | ALL.

Global Instance Mode_eq_dec : EqDecision Mode.
Proof. solve_decision. Defined.

Module EditItem.
Record t : Type := mk { term : string; distance : Z }.
End EditItem.

Module DictionaryItem.
Record t : Type :=
  mk { term : string; suggestions : list EditItem.t; count : Z }.
End DictionaryItem.

Module SuggestItem.
Record t : Type := mk { term : string; distance : Z; count : Z }.
End SuggestItem.

(** A [SuggestItem] as [lookup] builds it: its [term] and [count] are
    copied from what [this.dictionary[key]] yields.  Copied from a
    [DictionaryItem] they are a string and a number ([Complete]); copied
    from a member inherited from [Object.prototype] the term is
    [undefined] and the count is [undefined] or, once [item.count++]
    (line 117) ran on that member, [NaN]: either way any difference with
    it is [NaN], and only [distance] is set ([Hollow]). *)
Inductive suggested : Type :=
| Complete (s : SuggestItem.t)
| Hollow (distance : Z).

Definition suggested_distance (a : suggested) : Z :=
  match a with
  | Complete s => SuggestItem.distance s
  | Hollow distance => distance
  end.

(** [Word] is the common prototype: every object has a [term] property;
    [None] is [undefined]. *)
Class Word (A : Type) : Type := term : A -> option string.
Global Instance EditItem_Word : Word EditItem.t :=
  fun x => Some (EditItem.term x).
Global Instance DictionaryItem_Word : Word DictionaryItem.t :=
  fun x => Some (DictionaryItem.term x).
Global Instance SuggestItem_Word : Word SuggestItem.t :=
  fun x => Some (SuggestItem.term x).
Global Instance suggested_Word : Word suggested :=
  fun x => match x with
           | Complete s => Some (SuggestItem.term s)
           | Hollow _ => None
           end.

(** [Word.prototype.equals] (line 220):
    [obj && typeof obj.term !== 'undefined' && obj.term == this.term].
    A string never equals [undefined]. *)
Definition equals {A B : Type} `{Word A, Word B} (this : A) (obj : B) : bool :=
  match term obj, term this with
  | Some o, Some t => String.eqb o t
  | _, _ => false
  end.

(** [wordListContains(list, value)] (lines 298-303). *)
Definition wordListContains {A B : Type} `{Word A, Word B}
    (list : list A) (value : B) : bool :=
  existsb (fun x => equals x value) list.

(** ** The engine (lines 40-50) *)

Record SymSpell : Type := mkSymSpell {
  maxEditDistance : Z;
  mode : Mode;
  dictionary : gmap string DictionaryItem.t
}.

(** [new SymSpell(maxEditDistance, mode)]; [None] is an omitted argument.
    [maxEditDistance || 2] also replaces [0] by [2]. *)
Definition new (maxEditDistance : option Z) (mode : option Mode) : SymSpell :=
  {| maxEditDistance :=
       match maxEditDistance with
       | Some d => if d =? 0 then 2 else d
       | None => 2
       end;
     mode := default ALL mode;
     dictionary := ∅ |}.

(** *** Reading the dictionary object

    [this.dictionary] starts as [{}] (line 43), so a read
    [this.dictionary[key]] that finds no own property goes on to
    [Object.prototype].  Its members are functions or, for [__proto__],
    [Object.prototype] itself: all truthy, and without [term],
    [suggestions] or [count] of their own. *)
Definition Object_prototype : list string :=
  ["constructor"; "__defineGetter__"; "__defineSetter__"; "hasOwnProperty";
   "__lookupGetter__"; "__lookupSetter__"; "isPrototypeOf";
   "propertyIsEnumerable"; "toString"; "valueOf"; "__proto__";
   "toLocaleString"].

Definition inherited (key : string) : bool :=
  bool_decide (key ∈ Object_prototype).

Inductive property : Type :=
| Own (item : DictionaryItem.t)
| Inherited
| Undefined.

(** [this.dictionary[key]] *)
Definition read (dictionary : gmap string DictionaryItem.t) (key : string)
    : property :=
  match dictionary !! key with
  | Some item => Own item
  | None => if inherited key then Inherited else Undefined
  end.

(** How a call ends that changes the engine: it returns, or a [TypeError]
    interrupts it; either way it leaves a state behind. *)
Inductive effect (S : Type) : Type :=
| Completed (state : S)
| Interrupted (state : S).
Arguments Completed {S} state.
Arguments Interrupted {S} state.

Definition state_of {S : Type} (e : effect S) : S :=
  match e with
  | Completed state => state
  | Interrupted state => state
  end.

(** How a call ends that only computes: with a value or a [TypeError]. *)
Inductive completion (A : Type) : Type :=
| Normal (value : A)
| TypeError.
Arguments Normal {A} value.
Arguments TypeError {A}.

(** ** [distance] (lines 317-352) *)

Section Distance.

Variables source target : string.

Let m : nat := String.length source.
Let n : nat := String.length target.
Let INF : Z := Z.of_nat m + Z.of_nat n.

(** The table [score] is an array of [m+2] arrays of length [n+2]; a cell
    that was never written reads as [undefined] ([None]).  [sd] is an
    object indexed by characters; the key [None] is the property
    ["undefined"] that [sd[source[m]] = 0] creates. *)

(** Body of the loop at lines 324-328. *)
Definition init_row (st : gmap (nat * nat) Z * gmap (option ascii) nat) (i : nat)
    : gmap (nat * nat) Z * gmap (option ascii) nat :=
  let '(score, sd) := st in
  let score := <[(i + 1, 1)%nat := Z.of_nat i]> score in
  let score := <[(i + 1, 0)%nat := INF]> score in
  (score, <[Js.char_at source i := 0%nat]> sd).

(** Body of the loop at lines 329-333. *)
Definition init_col (st : gmap (nat * nat) Z * gmap (option ascii) nat) (j : nat)
    : gmap (nat * nat) Z * gmap (option ascii) nat :=
  let '(score, sd) := st in
  let score := <[(1, j + 1)%nat := Z.of_nat j]> score in
  let score := <[(0, j + 1)%nat := INF]> score in
  (score, <[Js.char_at target j := 0%nat]> sd).

(** Body of the inner loop (lines 338-347) at row [i], column [j]; the
    state is the table and [DB].  Reading an unwritten cell would yield
    [undefined] and turn the arithmetic into [NaN]: the model stops with
    [None] there. *)
Definition cell_step (sd : gmap (option ascii) nat) (i : nat)
    (st : option (gmap (nat * nat) Z * nat)) (j : nat)
    : option (gmap (nat * nat) Z * nat) :=
  '(score, DB) ← st;
  let i1 := sd !! Js.char_at target (j - 1) in
  let j1 := DB in
  '(v, DB) ←
    (if decide (Js.char_at source (i - 1) = Js.char_at target (j - 1)) then
       x ← score !! (i, j);
       Some (x, j)
     else
       x ← score !! (i, j);
       y ← score !! (i + 1, j)%nat;
       z ← score !! (i, j + 1)%nat;
       Some (Z.min x (Z.min y z) + 1, DB));
  let score := <[(i + 1, j + 1)%nat := v]> score in
  v' ←
    match i1 with
    | Some i1 =>
        if (i1 <? m + 2)%nat then
          (* [score[i1]] is a row, hence truthy *)
          t ← score !! (i1, j1);
          Some (Z.min v (t + (Z.of_nat i - Z.of_nat i1 - 1) + 1
                           + (Z.of_nat j - Z.of_nat j1 - 1)))
        else Some v (* [Math.min(v, Infinity)] *)
    | None => Some v (* [score[undefined]] is falsy *)
    end;
  Some (<[(i + 1, j + 1)%nat := v']> score, DB).

(** Body of the outer loop (lines 335-350) at row [i]. *)
Definition row_step (st : option (gmap (nat * nat) Z * gmap (option ascii) nat))
    (i : nat) : option (gmap (nat * nat) Z * gmap (option ascii) nat) :=
  '(score, sd) ← st;
  '(score, _) ← fold_left (cell_step sd i) (seq 1 n) (Some (score, 0%nat));
  Some (score, <[Js.char_at source (i - 1) := i]> sd).

(** The filled table, from line 321 to line 350. *)
Definition distance_table : option (gmap (nat * nat) Z * gmap (option ascii) nat) :=
  let score : gmap (nat * nat) Z := <[(0, 0)%nat := INF]> ∅ in
  let st := fold_left init_row (seq 0 (m + 1)) (score, ∅) in
  let st := fold_left init_col (seq 0 (n + 1)) st in
  fold_left row_step (seq 1 m) (Some st).

(** [distance(source, target)]; [None] would be a [NaN] result. *)
Definition distance_opt : option Z :=
  if negb (Js.truthy source) then
    Some (if Js.truthy target then Z.of_nat n else 0)
  else if negb (Js.truthy target) then Some (Z.of_nat m)
  else
    '(score, _) ← distance_table;
    score !! (m + 1, n + 1)%nat.

End Distance.

(** [distance] as its callers use it.  [distance_opt] never yields [None]
    (see the section on the symmetry of [distance]), so the default is never
    taken. *)
Definition distance (source target : string) : Z :=
  default 0 (distance_opt source target).

(** ** [computePermutations] (lines 271-293) *)

(** [word.slice(0, i) + word.slice(i+1)] *)
Definition delete_at (word : string) (i : nat) : string :=
  Js.slice word 0 i +:+ Js.slice_from word (i + 1).

(** The array [permutations] holds references to [EditItem] objects, and
    [indexOf] searches it with strict equality, that is by reference.  A
    reference is the number of the allocation that created the object. *)
Fixpoint indexOf {A : Type} (l : list (nat * A)) (ref : nat) : Z :=
  match l with
  | [] => -1
  | (r, _) :: l =>
      if (r =? ref)%nat then 0
      else let k := indexOf l ref in if k =? -1 then -1 else k + 1
  end.

(** Lines 283-287: append the items of [nextPermutations] not yet present. *)
Definition push_missing (permutations nextPermutations : list (nat * EditItem.t))
    : list (nat * EditItem.t) :=
  fold_left
    (fun permutations q =>
       if indexOf permutations q.1 =? -1 then permutations ++ [q]
       else permutations)
    nextPermutations permutations.

(** Lines 276-289, the loop body at position [i].  The state is the array
    [permutations] and the number [next] of objects allocated so far;
    [recurse] stands for the recursive call at line 282. *)
Definition permute_at
    (recurse : string -> Z -> nat -> list (nat * EditItem.t) * nat)
    (word : string) (editDistance maxEditDistance : Z)
    (st : list (nat * EditItem.t) * nat) (i : nat)
    : list (nat * EditItem.t) * nat :=
  let '(permutations, next) := st in
  let p := (next, EditItem.mk (delete_at word i) editDistance) in
  let next := S next in
  if indexOf permutations p.1 =? -1 then
    let permutations := permutations ++ [p] in
    if editDistance <? maxEditDistance then
      let '(nextPermutations, next) :=
        recurse (EditItem.term p.2) editDistance next in
      (push_missing permutations nextPermutations, next)
    else (permutations, next)
  else (permutations, next).

(** The recursion is on a word one character shorter; [fuel] bounds its
    depth, and [String.length word] is never exhausted because a word of
    length at most 1 stops the recursion by itself. *)
Fixpoint computePermutations_refs (fuel : nat) (word : string)
    (editDistance maxEditDistance : Z) (next : nat)
    : list (nat * EditItem.t) * nat :=
  let editDistance := editDistance + 1 in
  let l := String.length word in
  if (1 <? l)%nat then
    fold_left
      (permute_at
         (match fuel with
          | O => fun _ _ next => ([], next)
          | S fuel =>
              fun word editDistance next =>
                computePermutations_refs fuel word editDistance
                  maxEditDistance next
          end)
         word editDistance maxEditDistance)
      (seq 0 l) ([], next)
  else ([], next).

(** [computePermutations(word, editDistance, maxEditDistance)]: the objects
    the returned array refers to, in order. *)
Definition computePermutations (word : string) (editDistance maxEditDistance : Z)
    : list EditItem.t :=
  (computePermutations_refs (String.length word) word
     editDistance maxEditDistance 0).1.*2.

(** ** [addOrTerminateEarly] (lines 305-312) *)

Definition head_distance (suggestions : list EditItem.t) : option Z :=
  EditItem.distance <$> head suggestions.

Definition addOrTerminateEarly (suggestions : list EditItem.t)
    (suggestion : EditItem.t) (mode : Mode) : list EditItem.t :=
  let suggestions :=
    match head_distance suggestions with
    | Some d0 =>
        if bool_decide (mode ≠ ALL) && (EditItem.distance suggestion <? d0)
        then [] else suggestions
    | None => suggestions
    end in
  match head_distance suggestions with
  | Some d0 =>
      if bool_decide (mode = ALL) || (EditItem.distance suggestion <=? d0)
      then suggestions ++ [suggestion] else suggestions
  | None => suggestions ++ [suggestion]
  end.

(** ** [realEditDistance] (lines 354-359) *)

Definition realEditDistance (dictItem inputPermutation : EditItem.t)
    (input : string) : Z :=
  if String.eqb (EditItem.term dictItem) input then 0
  else if EditItem.distance dictItem =? 0 then EditItem.distance inputPermutation
  else if EditItem.distance inputPermutation =? 0 then EditItem.distance dictItem
  else distance (EditItem.term dictItem) input.

(** ** [addWord] (lines 89-118) *)

Definition count_incr (item : DictionaryItem.t) : DictionaryItem.t :=
  DictionaryItem.mk (DictionaryItem.term item)
    (DictionaryItem.suggestions item) (DictionaryItem.count item + 1).

(** Body of the loop at lines 99-115 for the permutation [ps]; [None] is
    a [TypeError].  When line 104 finds an inherited member, [entry] is
    that member, [entry.suggestions] is [undefined], and
    [wordListContains] fails on [list.length]. *)
Definition register (word language : string) (mode : Mode)
    (dictionary : gmap string DictionaryItem.t) (ps : EditItem.t)
    : option (gmap string DictionaryItem.t) :=
  let suggestion := EditItem.mk word (EditItem.distance ps) in
  match read dictionary (language +:+ EditItem.term ps) with
  | Own entry =>
      if wordListContains (DictionaryItem.suggestions entry) suggestion
      then Some dictionary
      else
        Some (<[language +:+ EditItem.term ps :=
                  DictionaryItem.mk (DictionaryItem.term entry)
                    (addOrTerminateEarly (DictionaryItem.suggestions entry)
                       suggestion mode)
                    (DictionaryItem.count entry)]> dictionary)
  | Inherited => None
  | Undefined =>
      Some (<[language +:+ EditItem.term ps :=
                DictionaryItem.mk "" [suggestion] 0]> dictionary)
  end.

(** The loop at lines 99-115: it stops at the first [TypeError]. *)
Fixpoint register_all (word language : string) (mode : Mode)
    (dictionary : gmap string DictionaryItem.t)
    (possibleSuggestions : list EditItem.t)
    : effect (gmap string DictionaryItem.t) :=
  match possibleSuggestions with
  | [] => Completed dictionary
  | ps :: possibleSuggestions =>
      match register word language mode dictionary ps with
      | Some dictionary =>
          register_all word language mode dictionary possibleSuggestions
      | None => Interrupted dictionary
      end
  end.

(** [addWord(word, language)] and how it ends.  On an own property or an
    inherited member under [key], [item] is that object and only
    [item.count++] runs; on an inherited member this changes that member
    and nothing in the dictionary.  Otherwise the new item is stored
    (line 97) before its variants are registered, and [item.count++] is
    reached only when the loop completes. *)
Definition addWord_effect (self : SymSpell) (word language : string)
    : effect SymSpell :=
  let key := language +:+ word in
  let with_dictionary d :=
    {| maxEditDistance := maxEditDistance self;
       mode := mode self;
       dictionary := d |} in
  match read (dictionary self) key with
  | Own _ =>
      Completed (with_dictionary (alter count_incr key (dictionary self)))
  | Inherited => Completed (with_dictionary (dictionary self))
  | Undefined =>
      let item := DictionaryItem.mk word [] 0 in
      let possibleSuggestions :=
        computePermutations word 0 (maxEditDistance self) in
      match register_all word language (mode self)
              (<[key := item]> (dictionary self)) possibleSuggestions with
      | Completed d => Completed (with_dictionary (alter count_incr key d))
      | Interrupted d => Interrupted (with_dictionary d)
      end
  end.

(** The engine after [addWord(word, language)], returned or interrupted. *)
Definition addWord (self : SymSpell) (word language : string) : SymSpell :=
  state_of (addWord_effect self word language).

(** [language || 'und'] *)
Definition language_or_und (language : string) : string :=
  if Js.truthy language then language else "und".

(** [addWords(corpus, language, tokenizer)] (lines 68-75), with the
    tokenizer given; the default one is a regular-expression match and is
    not part of the model.  A [TypeError] in [addWord] ends the loop. *)
Definition addWords (self : SymSpell) (corpus language : string)
    (tokenizer : string -> list string) : effect SymSpell :=
  let language := language_or_und language in
  fold_left
    (fun st word =>
       match st with
       | Completed self => addWord_effect self word language
       | Interrupted self => Interrupted self
       end)
    (tokenizer corpus) (Completed self).

(** The engine after [addWord] was called for each of a list of
    (word, language) pairs, in order, by a caller that goes on after a
    [TypeError]. *)
Definition addAll (self : SymSpell) (words : list (string * string)) : SymSpell :=
  fold_left (fun self wl => addWord self wl.1 wl.2) words self.

(** ** [lookup] (lines 137-214) *)

(** The comparator handed to [Array.prototype.sort] (lines 149-152);
    [None] is [NaN], the difference of two counts one of which is
    [undefined]. *)
Definition compare_suggestions (a b : suggested) : option Z :=
  let d := suggested_distance a - suggested_distance b in
  if d =? 0 then
    match a, b with
    | Complete a, Complete b => Some (SuggestItem.count b - SuggestItem.count a)
    | _, _ => None
    end
  else Some d.

(** [Array.prototype.sort] with a comparator, as a stable insertion sort;
    a comparator result [NaN] counts as [+0].  For a comparator that is a
    consistent total preorder on the elements every conforming engine
    returns the permutation ordered by it. *)
Fixpoint sort_insert {A : Type} (cmp : A -> A -> option Z) (x : A) (l : list A)
    : list A :=
  match l with
  | [] => [x]
  | y :: l' =>
      if 0 <? default 0 (cmp x y) then y :: sort_insert cmp x l' else x :: l
  end.

Definition array_sort {A : Type} (cmp : A -> A -> option Z) (l : list A) : list A :=
  fold_right (sort_insert cmp) [] l.

(** The filter at lines 152-154 keeps the items with a truthy [term]:
    not [undefined] and not the empty string.  What it keeps was copied
    from a [DictionaryItem]. *)
Definition kept (a : suggested) : option SuggestItem.t :=
  match a with
  | Complete s => if Js.truthy (SuggestItem.term s) then Some s else None
  | Hollow _ => None
  end.

(** The local function [sort] (lines 148-156).  It is always invoked as a
    plain call [sort()], so inside it [this] is not the engine but the
    global object; [this_mode] is the [mode] property of that receiver,
    [None] when it has none or holds no mode. *)
Definition sort (this_mode : option Mode) (suggestions : list suggested)
    : list SuggestItem.t :=
  let suggestions := omap kept (array_sort compare_suggestions suggestions) in
  match suggestions with
  | first :: _ :: _ =>
      if bool_decide (this_mode = Some TOP) then [first] else suggestions
  | _ => suggestions
  end.

Definition first_distance (suggestions : list suggested) : option Z :=
  suggested_distance <$> head suggestions.

Section Lookup.

(** The [mode] property of the global object; the program never sets it. *)
Variable global_mode : option Mode.
Variable self : SymSpell.
Variables word language : string.

(** Lines 191-198: push what is stored behind a nearby reference.  An
    inherited member is truthy as well and yields an item without term
    and count. *)
Definition push_verified (suggestions : list suggested)
    (suggestion : EditItem.t) (distance : Z) : list suggested :=
  if distance <? maxEditDistance self then
    match read (dictionary self) (language +:+ EditItem.term suggestion) with
    | Own di =>
        suggestions ++
          [Complete (SuggestItem.mk (DictionaryItem.term di) distance
                       (DictionaryItem.count di))]
    | Inherited => suggestions ++ [Hollow distance]
    | Undefined => suggestions
    end
  else suggestions.

(** Body of the loop at lines 179-200 for the reference [suggestion]. *)
Definition visit_nearby (candidate : EditItem.t)
    (suggestions : list suggested) (suggestion : EditItem.t)
    : list suggested :=
  if wordListContains suggestions suggestion then suggestions
  else
    let distance := realEditDistance suggestion candidate word in
    match first_distance suggestions with
    | Some d0 =>
        if bool_decide (mode self ≠ ALL) then
          if distance <? d0 then push_verified [] suggestion distance
          else if d0 <? distance then suggestions
          else push_verified suggestions suggestion distance
        else push_verified suggestions suggestion distance
    | None => push_verified suggestions suggestion distance
    end.

(** Lines 203-210: enqueue the one-deletion variants not yet queued. *)
Definition expand (candidate : EditItem.t) (candidates : list EditItem.t)
    : list EditItem.t :=
  if EditItem.distance candidate <? maxEditDistance self then
    fold_left
      (fun candidates p =>
         if wordListContains candidates p then candidates
         else candidates ++ [p])
      (computePermutations (EditItem.term candidate)
         (EditItem.distance candidate) 0)
      candidates
  else candidates.

Inductive outcome : Type :=
| Return (result : list SuggestItem.t)
| Continue (candidates : list EditItem.t) (suggestions : list suggested)
| Raise.

(** Lines 167-176 for the object [this.dictionary[key]] with the given
    [term] and [count]: the suggestions after the push, and whether
    line 174 returns. *)
Definition push_hit (candidate : EditItem.t) (suggestions : list suggested)
    (si : suggested) : list suggested * bool :=
  let fresh := negb (wordListContains suggestions si) in
  (if fresh then suggestions ++ [si] else suggestions,
   fresh && bool_decide (mode self ≠ ALL) && (EditItem.distance candidate =? 0)).

(** One evaluation of the loop condition and body (lines 158-211).  On an
    inherited member that does not return at line 174, line 178 reads
    [suggestions] off it, which is [undefined], and [s.length] at line 179
    is a [TypeError]. *)
Definition lookup_step (candidates : list EditItem.t)
    (suggestions : list suggested) : outcome :=
  match candidates with
  | [] => Return (sort global_mode suggestions)
  | candidate :: candidates =>
      if (bool_decide (mode self ≠ ALL) &&
          match first_distance suggestions with
          | Some d0 => d0 <? EditItem.distance candidate
          | None => false
          end)
         || (maxEditDistance self <? EditItem.distance candidate)
      then Return (sort global_mode suggestions)
      else
        let key := language +:+ EditItem.term candidate in
        match read (dictionary self) key with
        | Own entry =>
            let si :=
              Complete (SuggestItem.mk (DictionaryItem.term entry)
                          (EditItem.distance candidate)
                          (DictionaryItem.count entry)) in
            let '(suggestions, returns) := push_hit candidate suggestions si in
            if returns then Return (sort global_mode suggestions)
            else
              Continue (expand candidate candidates)
                (fold_left (visit_nearby candidate)
                   (DictionaryItem.suggestions entry) suggestions)
        | Inherited =>
            let si := Hollow (EditItem.distance candidate) in
            let '(suggestions, returns) := push_hit candidate suggestions si in
            if returns then Return (sort global_mode suggestions) else Raise
        | Undefined => Continue (expand candidate candidates) suggestions
        end
  end.

(** The [while] loop; [None] when [fuel] iterations were not enough. *)
Fixpoint lookup_loop (fuel : nat) (candidates : list EditItem.t)
    (suggestions : list suggested)
    : option (completion (list SuggestItem.t)) :=
  match fuel with
  | O => None
  | S fuel =>
      match lookup_step candidates suggestions with
      | Return result => Some (Normal result)
      | Continue candidates suggestions =>
          lookup_loop fuel candidates suggestions
      | Raise => Some TypeError
      end
  end.

End Lookup.

(** A bound on the iterations started by a candidate with a term of length
    [l]: itself and at most [l] candidates of length [l - 1]. *)
Fixpoint weight (l : nat) : nat :=
  match l with
  | O => 1
  | S l' => S (l * weight l')
  end.

(** [lookup(word, language)] and how it ends.  The loop is given
    [weight |word| + 1] iterations, which always suffice (see the section
    on termination). *)
Definition lookup (global_mode : option Mode) (self : SymSpell)
    (word language : string) : option (completion (list SuggestItem.t)) :=
  lookup_loop global_mode self word (language_or_und language)
    (S (weight (String.length word)))
    [EditItem.mk word 0] [].

(** ** Measures and relations used in the proofs *)

(** What [computePermutations] amounts to: every deletion, each followed by
    the variants of the shortened word while the budget lasts, with nothing
    left out. *)
Fixpoint variants (fuel : nat) (word : string)
    (editDistance maxEditDistance : Z) : list EditItem.t :=
  let editDistance := editDistance + 1 in
  let l := String.length word in
  if (1 <? l)%nat then
    flat_map
      (fun i =>
         EditItem.mk (delete_at word i) editDistance ::
         (if editDistance <? maxEditDistance then
            match fuel with
            | O => []
            | S fuel =>
                variants fuel (delete_at word i) editDistance maxEditDistance
            end
          else []))
      (seq 0 l)
  else [].

(** The objects of a list, allocated one after the other from [next] on. *)
Fixpoint number {A : Type} (next : nat) (items : list A) : list (nat * A) :=
  match items with
  | [] => []
  | x :: items => (next, x) :: number (S next) items
  end.

(** The iterations still owed by a work queue. *)
Definition queue_weight (candidates : list EditItem.t) : nat :=
  sum_list_with (fun c => weight (String.length (EditItem.term c))) candidates.


(** A list of nearby terms whose entries all carry the same distance. *)
Definition uniform (suggestions : list EditItem.t) : Prop :=
  forall a b, a ∈ suggestions -> b ∈ suggestions ->
    EditItem.distance a = EditItem.distance b.

(** *** The recurrence behind [distance]

    [last_match s ch k] is the greatest position [p] with [1 <= p <= k] and
    [s[p-1] = ch], or [0]: what [sd] holds for the rows and [DB] for the
    columns. *)
Fixpoint last_match (s : string) (ch : option ascii) (k : nat) : nat :=
  match k with
  | O => O
  | S k' => if decide (Js.char_at s k' = ch) then S k' else last_match s ch k'
  end.

(** The cells of rows 0 and 1 and of columns 0 and 1. *)
Definition border (INF : Z) (r c : nat) : option Z :=
  if (r =? 0)%nat then Some INF
  else if (c =? 0)%nat then Some INF
  else if (r =? 1)%nat then Some (Z.of_nat c - 1)
  else if (c =? 1)%nat then Some (Z.of_nat r - 1)
  else None.

(** [cell a b r c v]: the recurrence gives the value [v] to [score[r][c]]. *)
Inductive cell (a b : string) : nat -> nat -> Z -> Prop :=
| cell_border r c v :
    (r <= String.length a + 1)%nat -> (c <= String.length b + 1)%nat ->
    border (Z.of_nat (String.length a) + Z.of_nat (String.length b)) r c
    = Some v ->
    cell a b r c v
| cell_inner i j x y z t v :
    (1 <= i <= String.length a)%nat -> (1 <= j <= String.length b)%nat ->
    cell a b i j x -> cell a b (i + 1) j y -> cell a b i (j + 1) z ->
    cell a b (last_match a (Js.char_at b (j - 1)) (i - 1))
      (last_match b (Js.char_at a (i - 1)) (j - 1)) t ->
    v = Z.min
          (if decide (Js.char_at a (i - 1) = Js.char_at b (j - 1)) then x
           else Z.min x (Z.min y z) + 1)
          (t + (Z.of_nat i
                - Z.of_nat (last_match a (Js.char_at b (j - 1)) (i - 1)) - 1)
           + 1
           + (Z.of_nat j
              - Z.of_nat (last_match b (Js.char_at a (i - 1)) (j - 1)) - 1)) ->
    cell a b (i + 1) (j + 1) v.

(** The cells written once rows up to [i] are complete and row [i + 1] is
    filled up to column [j]. *)
Definition covered (a b : string) (i j r c : nat) : Prop :=
  (r <= String.length a + 1)%nat /\ (c <= String.length b + 1)%nat
  /\ (r <= 1 \/ c <= 1 \/ r <= i \/ (r = i + 1 /\ c <= j))%nat.

(** Every cell selected by [cov] is written and holds its value. *)
Definition table_inv (a b : string) (cov : nat -> nat -> Prop)
    (score : gmap (nat * nat) Z) : Prop :=
  forall r c, cov r c -> exists v, score !! (r, c) = Some v /\ cell a b r c v.

(** At row [i], [sd] knows every character of [b] and holds the last
    earlier row of [a] with that character. *)
Definition sd_inv (a b : string) (i : nat) (sd : gmap (option ascii) nat) : Prop :=
  (forall j, (j <= String.length b)%nat -> is_Some (sd !! Js.char_at b j))
  /\ (forall ch k, sd !! ch = Some k -> k = last_match a ch (i - 1)).

(** Every reference [(term, distance)] stored under a key is accounted
    for: the key is a language followed by a string [distance] characters
    shorter than [term], [distance] is at least 1 and at most the greater
    of 1 and [maxDist], and [term] is stored as a word of that language. *)
Definition sound_index (maxDist : Z) (d : gmap string DictionaryItem.t) : Prop :=
  forall (k : string) entry s,
    d !! k = Some entry -> s ∈ DictionaryItem.suggestions entry ->
    exists language variant,
      k = language +:+ variant
      /\ Z.of_nat (String.length variant) + EditItem.distance s
         = Z.of_nat (String.length (EditItem.term s))
      /\ 1 <= EditItem.distance s <= Z.max 1 maxDist
      /\ exists e, d !! (language +:+ EditItem.term s) = Some e
                   /\ DictionaryItem.term e = EditItem.term s.

(** A suggestion within [maxEditDistance] whose term and count are those
    of an entry stored under the language [language]. *)
Definition from_dictionary (self : SymSpell) (language : string)
    (s : SuggestItem.t) : Prop :=
  SuggestItem.distance s <= maxEditDistance self
  /\ exists t e,
       dictionary self !! (language +:+ t) = Some e
       /\ DictionaryItem.term e = SuggestItem.term s
       /\ DictionaryItem.count e = SuggestItem.count s.

(** The same for what [lookup] collects; nothing is asked of an item
    taken from an inherited member. *)
Definition from_dictionary_suggested (self : SymSpell) (language : string)
    (a : suggested) : Prop :=
  forall s, a = Complete s -> from_dictionary self language s.

(** [sound_index] with the language of each key taken from [languages]. *)
Definition indexed (languages : list string) (maxDist : Z)
    (d : gmap string DictionaryItem.t) : Prop :=
  forall (k : string) entry s,
    d !! k = Some entry -> s ∈ DictionaryItem.suggestions entry ->
    exists language variant,
      language ∈ languages
      /\ k = language +:+ variant
      /\ Z.of_nat (String.length variant) + EditItem.distance s
         = Z.of_nat (String.length (EditItem.term s))
      /\ 1 <= EditItem.distance s <= Z.max 1 maxDist
      /\ exists e, d !! (language +:+ EditItem.term s) = Some e
                   /\ DictionaryItem.term e = EditItem.term s.

(** Every term referred to under a key of [language] is stored as a word
    under [language]. *)
Definition refs_stored (language : string)
    (d : gmap string DictionaryItem.t) : Prop :=
  forall (t : string) entry s,
    d !! (language +:+ t) = Some entry ->
    s ∈ DictionaryItem.suggestions entry ->
    exists e, d !! (language +:+ EditItem.term s) = Some e
              /\ DictionaryItem.term e = EditItem.term s.

(** The documented constraint on language identifiers: none of them is
    the beginning of another one. *)
Definition prefix_free (languages : list string) : bool :=
  forallb
    (fun l =>
       forallb (fun l' => implb (String.prefix l l') (String.eqb l l')) languages)
    languages.

(** The language is not the beginning of any member name of
    [Object.prototype]: no key that starts with it names such a member. *)
Definition clear_language (language : string) : bool :=
  forallb (fun name => negb (String.prefix language name)) Object_prototype.


(** The terms of the items that have one. *)
Definition terms (suggestions : list suggested) : list string :=
  omap term suggestions.


(** A property of the collected suggestions is kept when an entry found
    under the key of a candidate is pushed (lines 167-172) ... *)
Definition kept_by_hit (self : SymSpell) (language : string)
    (P : list suggested -> Prop) : Prop :=
  forall c entry suggestions,
    P suggestions ->
    EditItem.distance c <= maxEditDistance self ->
    dictionary self !! (language +:+ EditItem.term c) = Some entry ->
    wordListContains suggestions
      (Complete (SuggestItem.mk (DictionaryItem.term entry)
                   (EditItem.distance c) (DictionaryItem.count entry)))
    = false ->
    P (suggestions ++
         [Complete (SuggestItem.mk (DictionaryItem.term entry)
                      (EditItem.distance c) (DictionaryItem.count entry))]).

(** ... and when a nearby term of such an entry is visited
    (lines 180-199). *)
Definition kept_by_nearby (self : SymSpell) (word language : string)
    (P : list suggested -> Prop) : Prop :=
  forall c entry suggestions s,
    dictionary self !! (language +:+ EditItem.term c) = Some entry ->
    s ∈ DictionaryItem.suggestions entry ->
    P suggestions ->
    P (visit_nearby self word language c suggestions s).

(** * Properties *)

(** ** Strings *)

Lemma length_append (a b : string) :
  String.length (a +:+ b) = (String.length a + String.length b)%nat.
Proof.
  induction a as [|c a IH]; [done|].
  change (S (String.length (a +:+ b)) = S (String.length a + String.length b)).
  by rewrite IH.
Qed.

Lemma append_empty_r (a : string) : a +:+ "" = a.
Proof.
  induction a as [|c a IH]; [done|].
  change (String c (a +:+ "") = String c a). by rewrite IH.
Qed.

Lemma length_zero_empty (a : string) : String.length a = 0%nat -> a = "".
Proof. by destruct a. Qed.

Lemma length_substring (s : string) (start len : nat) :
  String.length (String.substring start len s)
  = Nat.min len (String.length s - start).
Proof.
  revert start len. induction s as [|c s IH]; intros [|start] [|len]; simpl;
    rewrite ?IH; try lia; destruct (String.length s - start)%nat; lia.
Qed.

Lemma length_delete_at (word : string) (i : nat) :
  (i < String.length word)%nat ->
  String.length (delete_at word i) = (String.length word - 1)%nat.
Proof.
  intros Hi. unfold delete_at, Js.slice, Js.slice_from.
  rewrite length_append, !length_substring. lia.
Qed.

Lemma truthy_nonempty (s : string) : Js.truthy s = true <-> s <> "".
Proof.
  unfold Js.truthy. rewrite negb_true_iff. apply String.eqb_neq.
Qed.

(** ** Loops as folds *)

Lemma fold_left_invariant {A B : Type} (P : B -> Prop) (f : B -> A -> B)
    (l : list A) (b : B) :
  P b -> (forall b x, x ∈ l -> P b -> P (f b x)) -> P (fold_left f l b).
Proof.
  revert b. induction l as [|x l IH]; intros b Hb Hf; simpl; [done|].
  apply IH.
  - apply Hf; [left | done].
  - intros b' y Hy. apply Hf. by right.
Qed.

(** ** [computePermutations] *)

Lemma push_missing_elem (permutations nextPermutations : list (nat * EditItem.t)) q :
  q ∈ push_missing permutations nextPermutations ->
  q ∈ permutations \/ q ∈ nextPermutations.
Proof.
  unfold push_missing. revert permutations.
  induction nextPermutations as [|x l IH]; intros perms Hq; simpl in Hq.
  - by left.
  - apply IH in Hq as [Hq | Hq]; [|right; by right].
    destruct (indexOf perms x.1 =? -1); [|by left].
    apply elem_of_app in Hq as [Hq | Hq]; [by left|].
    apply list_elem_of_singleton in Hq as ->. right; left.
Qed.

(** Where an element of the array after one loop iteration comes from. *)
Lemma permute_at_elem recurse word editDistance maxEditDistance st i q :
  q ∈ (permute_at recurse word editDistance maxEditDistance st i).1 ->
  q ∈ st.1 \/ q.2 = EditItem.mk (delete_at word i) editDistance
  \/ exists next, q ∈ (recurse (delete_at word i) editDistance next).1.
Proof.
  destruct st as [perms nx]. unfold permute_at. simpl.
  destruct (indexOf perms nx =? -1); [|by left].
  assert (Hp : q ∈ perms ++ [(nx, EditItem.mk (delete_at word i) editDistance)] ->
          q ∈ perms \/ q.2 = EditItem.mk (delete_at word i) editDistance).
  { intros [Hq| ->%list_elem_of_singleton]%elem_of_app; [by left | by right]. }
  destruct (editDistance <? maxEditDistance); [|simpl; tauto].
  destruct (recurse (delete_at word i) editDistance (S nx))
    as [nextPerms nx'] eqn:Hr.
  simpl. intros [Hq|Hq]%push_missing_elem; [tauto|].
  right; right. exists (S nx). by rewrite Hr.
Qed.

(** Every variant is non-empty, strictly shorter than the word, and costs
    at least one deletion more than was already spent. *)
Lemma computePermutations_refs_spec fuel word editDistance maxEditDistance next q :
  q ∈ (computePermutations_refs fuel word editDistance maxEditDistance next).1 ->
  (1 <= String.length (EditItem.term q.2) < String.length word)%nat
  /\ editDistance + 1 <= EditItem.distance q.2.
Proof.
  revert word editDistance next q.
  induction fuel as [|fuel IH]; intros word ed next; simpl;
    (destruct (Nat.ltb_spec 1 (String.length word)) as [Hl|Hl];
     [|simpl; by intros ? ?%elem_of_nil]);
    (apply (fold_left_invariant
       (fun st : list (nat * EditItem.t) * nat => forall q, q ∈ st.1 ->
          (1 <= String.length (EditItem.term q.2) < String.length word)%nat
          /\ ed + 1 <= EditItem.distance q.2));
     [simpl; by intros ? ?%elem_of_nil|]);
    intros st i Hi%elem_of_seq Hst q
      [Hq | [Hq | [nx Hq]]]%permute_at_elem;
    try (by apply Hst);
    try (rewrite Hq; simpl; rewrite length_delete_at; lia).
  - simpl in Hq. by apply elem_of_nil in Hq.
  - apply IH in Hq. rewrite length_delete_at in Hq; lia.
Qed.

Lemma computePermutations_spec word editDistance maxEditDistance p :
  p ∈ computePermutations word editDistance maxEditDistance ->
  (1 <= String.length (EditItem.term p) < String.length word)%nat
  /\ editDistance + 1 <= EditItem.distance p.
Proof.
  unfold computePermutations. intros (q & -> & Hq)%list_elem_of_fmap.
  by apply computePermutations_refs_spec in Hq.
Qed.

(** The recursion never runs out of fuel: any two amounts of at least the
    length of the word give the same array. *)
Lemma permute_at_ext recurse recurse' word editDistance maxEditDistance st i :
  (forall next, recurse (delete_at word i) editDistance next
                = recurse' (delete_at word i) editDistance next) ->
  permute_at recurse word editDistance maxEditDistance st i
  = permute_at recurse' word editDistance maxEditDistance st i.
Proof.
  intros Hrec. destruct st as [perms nx]. unfold permute_at. simpl.
  by rewrite Hrec.
Qed.

Lemma fold_left_ext_in {A B : Type} (f g : B -> A -> B) (l : list A) (b : B) :
  (forall b x, x ∈ l -> f b x = g b x) -> fold_left f l b = fold_left g l b.
Proof.
  revert b. induction l as [|x l IH]; intros b Hfg; simpl; [done|].
  rewrite Hfg by left. apply IH. intros b' y Hy. apply Hfg. by right.
Qed.

Lemma computePermutations_refs_fuel fuel fuel' word editDistance maxEditDistance next :
  (String.length word <= fuel)%nat -> (String.length word <= fuel')%nat ->
  computePermutations_refs fuel word editDistance maxEditDistance next
  = computePermutations_refs fuel' word editDistance maxEditDistance next.
Proof.
  revert fuel' word editDistance next.
  induction fuel as [|fuel IH]; intros [|fuel'] word ed next Hf Hf'; simpl;
    destruct (Nat.ltb_spec 1 (String.length word)) as [Hl|Hl];
    try done; try lia.
  apply fold_left_ext_in. intros st i Hi%elem_of_seq.
  apply permute_at_ext. intros nx.
  apply IH; rewrite length_delete_at; lia.
Qed.

(** *** [indexOf] never finds a new object *)

Lemma number_app {A : Type} next (xs ys : list A) :
  number next (xs ++ ys) = number next xs ++ number (next + length xs) ys.
Proof.
  revert next. induction xs as [|x xs IH]; intros next; simpl.
  - by rewrite Nat.add_0_r.
  - by rewrite IH, Nat.add_succ_comm.
Qed.

Lemma number_values {A : Type} next (xs : list A) : (number next xs).*2 = xs.
Proof.
  revert next. induction xs as [|x xs IH]; intros next; simpl; [done|].
  by rewrite IH.
Qed.

Lemma indexOf_number {A : Type} next (xs : list A) ref :
  (ref < next \/ next + length xs <= ref)%nat ->
  indexOf (number next xs) ref = -1.
Proof.
  revert next. induction xs as [|x xs IH]; intros next Href; simpl; [done|].
  destruct (Nat.eqb_spec next ref) as [->|_]; [simpl in Href; lia|].
  rewrite IH; [done|]. simpl in Href. lia.
Qed.

Lemma push_missing_number next (xs ys : list EditItem.t) :
  push_missing (number next xs) (number (next + length xs) ys)
  = number next (xs ++ ys).
Proof.
  unfold push_missing. revert xs.
  induction ys as [|y ys IH]; intros xs; simpl.
  - by rewrite app_nil_r.
  - rewrite indexOf_number by lia. simpl.
    replace (number next xs ++ [(next + length xs, y)%nat])
      with (number next (xs ++ [y])) by (by rewrite number_app).
    replace (S (next + length xs)) with (next + length (xs ++ [y]))%nat
      by (rewrite length_app; simpl; lia).
    rewrite IH. by rewrite <- app_assoc.
Qed.

(** The loop, for a recursive call that allocates its result in order. *)
Lemma permute_at_number recurse (body : string -> Z -> list EditItem.t)
    word editDistance maxEditDistance next positions acc :
  (forall w e nx, recurse w e nx
                  = (number nx (body w e), (nx + length (body w e))%nat)) ->
  fold_left (permute_at recurse word editDistance maxEditDistance) positions
    (number next acc, (next + length acc)%nat)
  = let items :=
      acc ++ flat_map
               (fun i =>
                  EditItem.mk (delete_at word i) editDistance ::
                  (if editDistance <? maxEditDistance
                   then body (delete_at word i) editDistance else []))
               positions in
    (number next items, (next + length items)%nat).
Proof.
  intros Hrec. revert acc.
  induction positions as [|i positions IH]; intros acc; simpl.
  - by rewrite app_nil_r.
  - rewrite indexOf_number by lia. simpl.
    set (p := EditItem.mk (delete_at word i) editDistance).
    assert (Hpush : number next acc ++ [((next + length acc)%nat, p)]
                    = number next (acc ++ [p])) by (by rewrite number_app).
    assert (Hnext : S (next + length acc) = (next + length (acc ++ [p]))%nat)
      by (rewrite length_app; simpl; lia).
    rewrite Hpush, Hnext.
    destruct (editDistance <? maxEditDistance).
    + rewrite Hrec, push_missing_number.
      replace (next + length (acc ++ [p])
               + length (body (delete_at word i) editDistance))%nat
        with (next + length ((acc ++ [p])
                             ++ body (delete_at word i) editDistance))%nat
        by (rewrite !length_app; lia).
      rewrite IH. simpl. by rewrite <- !app_assoc.
    + rewrite IH. simpl. by rewrite <- !app_assoc.
Qed.

(** Every object pushed is new, so both [indexOf] tests answer -1 and the
    array is the plain list of variants. *)
Lemma computePermutations_refs_variants fuel word editDistance maxEditDistance next :
  computePermutations_refs fuel word editDistance maxEditDistance next
  = (number next (variants fuel word editDistance maxEditDistance),
     (next + length (variants fuel word editDistance maxEditDistance))%nat).
Proof.
  revert word editDistance next.
  induction fuel as [|fuel IH]; intros word ed next; simpl;
    (destruct (1 <? String.length word)%nat;
     [|simpl; by rewrite Nat.add_0_r]).
  - pose proof (permute_at_number (fun _ _ nx => ([], nx)) (fun _ _ => [])
                  word (ed + 1) maxEditDistance next
                  (seq 0 (String.length word)) []) as Hloop.
    change (next + length (@nil EditItem.t))%nat with (next + 0)%nat in Hloop.
    rewrite Nat.add_0_r in Hloop. apply Hloop.
    intros w e nx. simpl. by rewrite Nat.add_0_r.
  - pose proof (permute_at_number
                  (fun w e nx => computePermutations_refs fuel w e maxEditDistance nx)
                  (fun w e => variants fuel w e maxEditDistance)
                  word (ed + 1) maxEditDistance next
                  (seq 0 (String.length word)) []) as Hloop.
    change (next + length (@nil EditItem.t))%nat with (next + 0)%nat in Hloop.
    rewrite Nat.add_0_r in Hloop. apply Hloop.
    intros w e nx. apply IH.
Qed.

Lemma computePermutations_variants word editDistance maxEditDistance :
  computePermutations word editDistance maxEditDistance
  = variants (String.length word) word editDistance maxEditDistance.
Proof.
  unfold computePermutations.
  rewrite computePermutations_refs_variants. apply number_values.
Qed.

(** Without recursion the loop adds at most one variant per position. *)
Lemma permute_at_count recurse word editDistance maxEditDistance l st :
  maxEditDistance <= editDistance ->
  (length (fold_left (permute_at recurse word editDistance maxEditDistance) l st).1
   <= length st.1 + length l)%nat.
Proof.
  intros HM. assert (Hno : (editDistance <? maxEditDistance) = false) by lia.
  revert st. induction l as [|i l IH]; intros [perms nx]; simpl; [lia|].
  etrans; [apply IH|]. rewrite Hno.
  destruct (indexOf perms nx =? -1); simpl; rewrite ?length_app; simpl; lia.
Qed.

Lemma computePermutations_count word editDistance maxEditDistance :
  maxEditDistance <= editDistance + 1 ->
  (length (computePermutations word editDistance maxEditDistance)
   <= String.length word)%nat.
Proof.
  intros HM. unfold computePermutations. rewrite length_fmap.
  generalize (String.length word) at 1. intros fuel.
  destruct fuel; simpl;
    (destruct (Nat.ltb_spec 1 (String.length word)); simpl; [|lia]);
    (etrans; [by apply permute_at_count|]); simpl; rewrite length_seq; lia.
Qed.

(** ** Termination of the [lookup] loop *)

Lemma weight_pos l : (1 <= weight l)%nat.
Proof. destruct l; simpl; lia. Qed.

Lemma weight_mono l l' : (l <= l')%nat -> (weight l <= weight l')%nat.
Proof.
  induction 1 as [|l' _ IH]; [done|].
  etrans; [exact IH|]. simpl. pose proof (weight_pos l'). nia.
Qed.

Lemma queue_weight_app cs cs' :
  queue_weight (cs ++ cs') = (queue_weight cs + queue_weight cs')%nat.
Proof. apply sum_list_with_app. Qed.

Lemma queue_weight_bound (l : nat) ps :
  Forall (fun p => (String.length (EditItem.term p) <= l)%nat) ps ->
  (queue_weight ps <= length ps * weight l)%nat.
Proof.
  induction 1 as [|p ps Hp _ IH]; simpl; [done|].
  apply weight_mono in Hp. lia.
Qed.

(** The queue after [expand]: old candidates, then some of the variants. *)
Lemma expand_fold_weight ps cs :
  (queue_weight
     (fold_left
        (fun candidates (p : EditItem.t) =>
           if wordListContains candidates p then candidates
           else candidates ++ [p]) ps cs)
   <= queue_weight cs + queue_weight ps)%nat.
Proof.
  revert cs. induction ps as [|p ps IH]; intros cs; simpl; [lia|].
  etrans; [apply IH|].
  destruct (wordListContains cs p); rewrite ?queue_weight_app; simpl; lia.
Qed.

Lemma expand_fold_elem ps cs (q : EditItem.t) :
  q ∈ fold_left
        (fun candidates (p : EditItem.t) =>
           if wordListContains candidates p then candidates
           else candidates ++ [p]) ps cs ->
  q ∈ cs \/ q ∈ ps.
Proof.
  revert cs. induction ps as [|p ps IH]; intros cs Hq; simpl in Hq; [by left|].
  apply IH in Hq as [Hq|Hq]; [|right; by right].
  destruct (wordListContains cs p); [by left|].
  apply elem_of_app in Hq as [Hq| ->%list_elem_of_singleton];
    [by left | right; left].
Qed.

Lemma expand_elem self candidate candidates q :
  q ∈ expand self candidate candidates ->
  q ∈ candidates
  \/ q ∈ computePermutations (EditItem.term candidate)
          (EditItem.distance candidate) 0.
Proof.
  unfold expand.
  destruct (EditItem.distance candidate <? maxEditDistance self); [|by left].
  apply expand_fold_elem.
Qed.

Lemma expand_weight self candidate candidates :
  0 <= EditItem.distance candidate ->
  (queue_weight (expand self candidate candidates)
   < weight (String.length (EditItem.term candidate)) + queue_weight candidates)%nat.
Proof.
  intros Hd. unfold expand. pose proof (weight_pos (String.length (EditItem.term candidate))).
  destruct (EditItem.distance candidate <? maxEditDistance self); [|lia].
  eapply Nat.le_lt_trans; [apply expand_fold_weight|].
  set (ps := computePermutations _ _ _).
  assert (Hcount : (length ps <= String.length (EditItem.term candidate))%nat)
    by (apply computePermutations_count; lia).
  assert (Hlen : Forall (fun p => (String.length (EditItem.term p)
                   <= String.length (EditItem.term candidate) - 1)%nat) ps).
  { apply Forall_forall. intros p Hp%computePermutations_spec. lia. }
  apply queue_weight_bound in Hlen.
  destruct (String.length (EditItem.term candidate)) as [|l] eqn:Hl.
  - destruct ps; simpl in *; lia.
  - replace (S l - 1)%nat with l in Hlen by lia. simpl.
    pose proof (weight_pos l). nia.
Qed.

Lemma expand_nonneg self candidate candidates :
  0 <= EditItem.distance candidate ->
  Forall (fun c => 0 <= EditItem.distance c) candidates ->
  Forall (fun c => 0 <= EditItem.distance c) (expand self candidate candidates).
Proof.
  intros Hd Hcs. apply Forall_forall. intros q [Hq|Hq]%expand_elem.
  - by eapply Forall_forall in Hcs.
  - apply computePermutations_spec in Hq. lia.
Qed.

(** When the loop goes on, the head was popped and expanded. *)
Lemma lookup_step_continue gm self word language cs sugg cs' sugg' :
  lookup_step gm self word language cs sugg = Continue cs' sugg' ->
  exists c rest, cs = c :: rest /\ cs' = expand self c rest.
Proof.
  unfold lookup_step. destruct cs as [|c rest]; [done|].
  intros Hstep. exists c, rest. split; [done|].
  repeat match type of Hstep with
         | (if ?b then _ else _) = _ => destruct b
         | (let '(_, _) := ?p in _) = _ => destruct p
         | match ?o with Own _ => _ | Inherited => _ | Undefined => _ end = _ =>
             destruct o
         end; congruence.
Qed.

Lemma lookup_loop_defined gm self word language fuel cs sugg :
  (queue_weight cs < fuel)%nat ->
  Forall (fun c => 0 <= EditItem.distance c) cs ->
  exists result, lookup_loop gm self word language fuel cs sugg = Some result.
Proof.
  revert cs sugg. induction fuel as [|fuel IH]; intros cs sugg Hw Hcs; [lia|].
  simpl. destruct (lookup_step gm self word language cs sugg)
    as [result|cs' sugg'|] eqn:Hstep; [by eexists| |by eexists].
  apply lookup_step_continue in Hstep as (c & rest & -> & ->).
  apply Forall_cons in Hcs as [Hc Hrest].
  apply IH; [|by apply expand_nonneg].
  pose proof (expand_weight self c rest Hc). simpl in Hw. lia.
Qed.

Lemma lookup_loop_fuel gm self word language fuel fuel' cs sugg result :
  lookup_loop gm self word language fuel cs sugg = Some result ->
  (fuel <= fuel')%nat ->
  lookup_loop gm self word language fuel' cs sugg = Some result.
Proof.
  revert fuel' cs sugg. induction fuel as [|fuel IH]; intros fuel' cs sugg; [done|].
  intros Hrun Hle. destruct fuel' as [|fuel']; [lia|]. simpl in *.
  destruct (lookup_step gm self word language cs sugg); [done| |done].
  apply IH; [done | lia].
Qed.

Lemma lookup_defined gm self word language :
  exists result, lookup gm self word language = Some result.
Proof.
  apply lookup_loop_defined.
  - simpl. lia.
  - by repeat constructor.
Qed.

(** C10: [lookup] terminates.  The iterations granted to the loop are
    enough for every engine, word and language: the call ends, with a
    list or with a [TypeError]; more iterations give the same result, and
    every candidate that [expand] adds to the work queue is strictly
    shorter than the candidate it was generated from. *)
Theorem lookup_terminates gm self word language :
  (exists result,
     lookup gm self word language = Some result
     /\ forall fuel, (weight (String.length word) < fuel)%nat ->
          lookup_loop gm self word (language_or_und language) fuel
            [EditItem.mk word 0] [] = Some result)
  /\ (forall candidate candidates p,
        p ∈ expand self candidate candidates ->
        p ∈ candidates
        \/ (String.length (EditItem.term p)
            < String.length (EditItem.term candidate))%nat).
Proof.
  split.
  - destruct (lookup_defined gm self word language) as [result Hr].
    exists result. split; [done|]. intros fuel Hfuel.
    eapply lookup_loop_fuel; [exact Hr | lia].
  - intros c cs p [Hp|Hp]%expand_elem; [by left|right].
    apply computePermutations_spec in Hp. lia.
Qed.

(** ** Reading the dictionary *)

Lemma prefix_append (l t : string) : String.prefix l (l +:+ t) = true.
Proof.
  induction l as [|c l IH]; [by destruct t|].
  change (String.prefix (String c l) (String c (l +:+ t)) = true).
  simpl. by destruct (ascii_dec c c).
Qed.

Lemma clear_language_inherited language t :
  clear_language language = true -> inherited (language +:+ t) = false.
Proof.
  intros Hclear. unfold inherited. apply bool_decide_eq_false_2.
  intros Hin%list_elem_of_In. unfold clear_language in Hclear.
  rewrite forallb_forall in Hclear. apply Hclear in Hin.
  by rewrite prefix_append in Hin.
Qed.

Lemma read_Own d (key : string) item : d !! key = Some item -> read d key = Own item.
Proof. unfold read. by intros ->. Qed.

Lemma read_Own_inv d (key : string) item : read d key = Own item -> d !! key = Some item.
Proof.
  unfold read. destruct (d !! key); [congruence|]. by destruct (inherited key).
Qed.

Lemma read_Undefined d (key : string) :
  d !! key = None -> inherited key = false -> read d key = Undefined.
Proof. unfold read. by intros -> ->. Qed.

Lemma read_Undefined_inv d (key : string) :
  read d key = Undefined -> d !! key = None /\ inherited key = false.
Proof.
  unfold read. destruct (d !! key); [done|]. by destruct (inherited key).
Qed.

Lemma read_Inherited_inv d (key : string) :
  read d key = Inherited -> d !! key = None /\ inherited key = true.
Proof.
  unfold read. destruct (d !! key); [done|]. by destruct (inherited key).
Qed.

(** ** The result of [lookup] is what [sort] returns *)

Lemma lookup_step_return gm self word language cs sugg result :
  lookup_step gm self word language cs sugg = Return result ->
  exists suggestions, result = sort gm suggestions.
Proof.
  unfold lookup_step. intros Hstep.
  repeat match type of Hstep with
         | match ?l with [] => _ | _ :: _ => _ end = _ => destruct l
         | (if ?b then _ else _) = _ => destruct b eqn:?
         | (let '(_, _) := ?p in _) = _ => destruct p
         | match ?o with Own _ => _ | Inherited => _ | Undefined => _ end = _ =>
             destruct o
         end; try done; injection Hstep as <-; by eexists.
Qed.

Lemma lookup_loop_return gm self word language fuel cs sugg result :
  lookup_loop gm self word language fuel cs sugg = Some (Normal result) ->
  exists suggestions, result = sort gm suggestions.
Proof.
  revert cs sugg. induction fuel as [|fuel IH]; intros cs sugg; [done|].
  simpl. destruct (lookup_step gm self word language cs sugg) eqn:Hstep.
  - intros [= <-]. by eapply lookup_step_return.
  - apply IH.
  - done.
Qed.

(** ** Ordering of the result *)







Lemma elem_of_omap_kept s (l : list suggested) :
  s ∈ omap kept l -> Complete s ∈ l /\ SuggestItem.term s <> "".
Proof.
  intros ([s'|] & Hin & Hk)%list_elem_of_omap; [|done].
  simpl in Hk. destruct (Js.truthy _) eqn:Ht; [|done]. injection Hk as ->.
  split; [done|]. by apply truthy_nonempty.
Qed.




(** ** When [lookup] returns *)

Lemma lookup_step_clear gm self word language cs suggestions :
  clear_language language = true ->
  lookup_step gm self word language cs suggestions <> Raise.
Proof.
  intros Hclear. unfold lookup_step. destruct cs as [|c rest]; [done|].
  destruct (_ || _); [done|].
  unfold read. destruct (dictionary self !! _) as [entry|].
  - destruct (push_hit _ _ _ _) as [sg []]; done.
  - by rewrite clear_language_inherited.
Qed.

(** X19: Under a language ([language || 'und']) that is not the beginning
    of a member name of [Object.prototype], [lookup] returns a list: no
    [TypeError] interrupts it, on any engine and for any word. *)
Theorem lookup_returns gm self word language :
  clear_language (language_or_und language) = true ->
  exists result, lookup gm self word language = Some (Normal result).
Proof.
  intros Hclear. destruct (lookup_defined gm self word language) as [out Hout].
  rewrite Hout. unfold lookup in Hout. revert Hout.
  generalize (S (weight (String.length word))) as fuel.
  generalize [EditItem.mk word 0] as cs. generalize (@nil suggested) as sg.
  intros sg cs fuel. revert cs sg.
  induction fuel as [|fuel IH]; intros cs sg; [done|]. simpl.
  pose proof (lookup_step_clear gm self word (language_or_und language) cs sg
                Hclear) as Hstep.
  destruct (lookup_step _ _ _ _ _ _); [|apply IH|done].
  intros [= <-]. by eexists.
Qed.

Lemma lookup_returns_witness :
  exists result,
    lookup None (addWord (new None None) "tent" "en") "ten" "en"
    = Some (Normal result).
Proof.
  apply (lookup_returns None (addWord (new None None) "tent" "en") "ten" "en").
  reflexivity.
Defined.

(** ** Mode TOP *)

(** C1: an engine in mode TOP whose dictionary holds "ab" and "ac" answers
    [lookup("ad", "en")] with two suggestions: [sort] tests the [mode] of
    the global object (which has none), not of the engine, and keeps the
    whole list. *)
Theorem lookup_TOP_two_suggestions :
  let spell := addAll (new (Some 2) (Some TOP)) [("ab", "en"); ("ac", "en")] in
  mode spell = TOP
  /\ lookup None spell "ad" "en"
     = Some (Normal [SuggestItem.mk "ab" 1 1; SuggestItem.mk "ac" 1 1]).
Proof. vm_compute. done. Qed.

(** ** No deduplication in [computePermutations] *)

(** C4: [computePermutations("aa", 0, 0)] returns two items with the
    string "a": [indexOf] compares references, and both are new objects. *)
Theorem computePermutations_duplicates :
  computePermutations "aa" 0 0 = [EditItem.mk "a" 1; EditItem.mk "a" 1].
Proof. vm_compute. done. Qed.

(** ** [addWord] on a key that only holds nearby terms *)

(** C3: after [addWord("tent", "en")] the key "enten" holds an entry with
    no term.  [addWord("ten", "en")] then only increments its count: the
    term stays empty and no variant of "ten" is registered (the entry for
    "te" still refers to "tent" alone). *)
Theorem addWord_existing_bucket :
  let before := addWord (new None None) "tent" "en" in
  let after := addWord before "ten" "en" in
  dictionary before !! "enten"
    = Some (DictionaryItem.mk "" [EditItem.mk "tent" 1] 0)
  /\ dictionary after !! "enten"
    = Some (DictionaryItem.mk "" [EditItem.mk "tent" 1] 1)
  /\ dictionary after !! "ente"
    = Some (DictionaryItem.mk "" [EditItem.mk "tent" 2] 0).
Proof. vm_compute. done. Qed.

(** ** Facts about [addWord] and [addAll] *)

Lemma addAll_cons self w l words :
  addAll self ((w, l) :: words) = addAll (addWord self w l) words.
Proof. done. Qed.

Lemma addWord_mode self w l : mode (addWord self w l) = mode self.
Proof.
  unfold addWord, addWord_effect. destruct (read _ _); try done.
  by destruct (register_all _ _ _ _ _).
Qed.

Lemma addWord_maxEditDistance self w l :
  maxEditDistance (addWord self w l) = maxEditDistance self.
Proof.
  unfold addWord, addWord_effect. destruct (read _ _); try done.
  by destruct (register_all _ _ _ _ _).
Qed.

Lemma addAll_mode self words : mode (addAll self words) = mode self.
Proof.
  revert self. induction words as [|[w l] words IH]; intros self; [done|].
  by rewrite addAll_cons, IH, addWord_mode.
Qed.

Lemma addAll_maxEditDistance self words :
  maxEditDistance (addAll self words) = maxEditDistance self.
Proof.
  revert self. induction words as [|[w l] words IH]; intros self; [done|].
  by rewrite addAll_cons, IH, addWord_maxEditDistance.
Qed.

(** What one round of the loop at lines 99-115 does when it completes. *)
Lemma register_cases word language mode d ps d' :
  register word language mode d ps = Some d' ->
  (exists entry,
     d !! (language +:+ EditItem.term ps) = Some entry
     /\ wordListContains (DictionaryItem.suggestions entry)
          (EditItem.mk word (EditItem.distance ps)) = true
     /\ d' = d)
  \/ (exists entry,
        d !! (language +:+ EditItem.term ps) = Some entry
        /\ wordListContains (DictionaryItem.suggestions entry)
             (EditItem.mk word (EditItem.distance ps)) = false
        /\ d' = <[language +:+ EditItem.term ps :=
                    DictionaryItem.mk (DictionaryItem.term entry)
                      (addOrTerminateEarly (DictionaryItem.suggestions entry)
                         (EditItem.mk word (EditItem.distance ps)) mode)
                      (DictionaryItem.count entry)]> d)
  \/ (d !! (language +:+ EditItem.term ps) = None
      /\ inherited (language +:+ EditItem.term ps) = false
      /\ d' = <[language +:+ EditItem.term ps :=
                  DictionaryItem.mk "" [EditItem.mk word (EditItem.distance ps)]
                    0]> d).
Proof.
  unfold register, read.
  destruct (d !! (language +:+ EditItem.term ps)) as [entry|] eqn:He.
  - destruct (wordListContains _ _) eqn:Hc; intros [= <-].
    + left. by exists entry.
    + right. left. by exists entry.
  - destruct (inherited _) eqn:Hi; [done|]. intros [= <-]. by right; right.
Qed.

(** A property kept by each completed round holds when the loop ends,
    however it ends. *)
Lemma register_all_invariant (Q : gmap string DictionaryItem.t -> Prop)
    word language mode pss d :
  Q d ->
  (forall d ps d',
     ps ∈ pss -> Q d -> register word language mode d ps = Some d' -> Q d') ->
  Q (state_of (register_all word language mode d pss)).
Proof.
  revert d. induction pss as [|ps pss IH]; intros d Hd Hstep; [done|].
  simpl. destruct (register word language mode d ps) as [d'|] eqn:Hr; [|done].
  apply IH.
  - eapply Hstep; [left | done..].
  - intros d1 ps1 d1' Hin. apply Hstep. by right.
Qed.

(** The three ways of [addWord]: on an own entry, on an inherited member,
    on a free key. *)
Lemma addWord_cases self w l :
  (exists item,
     dictionary self !! (l +:+ w) = Some item
     /\ addWord_effect self w l
        = Completed
            {| maxEditDistance := maxEditDistance self;
               mode := mode self;
               dictionary := alter count_incr (l +:+ w) (dictionary self) |})
  \/ (dictionary self !! (l +:+ w) = None
      /\ inherited (l +:+ w) = true
      /\ addWord_effect self w l = Completed self)
  \/ (dictionary self !! (l +:+ w) = None
      /\ inherited (l +:+ w) = false
      /\ dictionary (addWord self w l)
         = match register_all w l (mode self)
                   (<[l +:+ w := DictionaryItem.mk w [] 0]> (dictionary self))
                   (computePermutations w 0 (maxEditDistance self)) with
           | Completed d => alter count_incr (l +:+ w) d
           | Interrupted d => d
           end).
Proof.
  unfold addWord, addWord_effect, read.
  destruct (dictionary self !! (l +:+ w)) as [item|] eqn:He.
  - left. by exists item.
  - destruct (inherited (l +:+ w)) eqn:Hi.
    + right. left. by destruct self.
    + right. right. repeat split; try done.
      by destruct (register_all _ _ _ _ _).
Qed.

(** A property [P] of the dictionary that [addWord] maintains: it is
    kept by [item.count++], and a property [Q] that implies it holds
    after line 97 and is kept by every completed round of the loop. *)
Lemma addWord_invariant (P Q : gmap string DictionaryItem.t -> Prop) self w l :
  P (dictionary self) ->
  (forall d, P d -> P (alter count_incr (l +:+ w) d)) ->
  (dictionary self !! (l +:+ w) = None -> inherited (l +:+ w) = false ->
   Q (<[l +:+ w := DictionaryItem.mk w [] 0]> (dictionary self))) ->
  (forall d ps d',
     ps ∈ computePermutations w 0 (maxEditDistance self) -> Q d ->
     register w l (mode self) d ps = Some d' -> Q d') ->
  (forall d, Q d -> P d) ->
  P (dictionary (addWord self w l)).
Proof.
  intros Hself Hincr Hnew Hstep HQP.
  destruct (addWord_cases self w l)
    as [(item & He & Heff)|[(He & Hi & Heff)|(He & Hi & Heff)]].
  - unfold addWord. rewrite Heff. simpl. by apply Hincr.
  - unfold addWord. by rewrite Heff.
  - rewrite Heff.
    pose proof (register_all_invariant Q w l (mode self)
                  (computePermutations w 0 (maxEditDistance self))
                  _ (Hnew He Hi) Hstep) as HQ.
    destruct (register_all _ _ _ _ _); simpl in HQ.
    + by apply Hincr, HQP.
    + by apply HQP.
Qed.

Lemma addAll_invariant (P : SymSpell -> Prop) self words :
  P self ->
  (forall self w l, (w, l) ∈ words -> P self -> P (addWord self w l)) ->
  P (addAll self words).
Proof.
  revert self. induction words as [|[w l] words IH]; intros self Hself Hstep;
    [done|].
  rewrite addAll_cons. apply IH.
  - apply Hstep; [left | done].
  - intros self' w' l' Hin. apply Hstep. by right.
Qed.

(** A property of all entries that [addWord] maintains, given that the
    registration step and the fresh item do. *)
Lemma addWord_entries (P : DictionaryItem.t -> Prop) self w l :
  (forall term suggestions count,
     P (DictionaryItem.mk term suggestions count) ->
     P (DictionaryItem.mk term suggestions (count + 1))) ->
  (forall term, P (DictionaryItem.mk term [] 0)) ->
  (forall term suggestions count suggestion,
     P (DictionaryItem.mk term suggestions count) ->
     wordListContains suggestions suggestion = false ->
     P (DictionaryItem.mk term
          (addOrTerminateEarly suggestions suggestion (mode self)) count)) ->
  (forall suggestion, P (DictionaryItem.mk "" [suggestion] 0)) ->
  map_Forall (fun _ => P) (dictionary self) ->
  map_Forall (fun _ => P) (dictionary (addWord self w l)).
Proof.
  intros Hincr Hnew Hadd Hbucket Hself.
  apply (addWord_invariant _ (map_Forall (fun _ => P))); try done.
  - intros d Hd k e. rewrite lookup_alter. case_decide as Hk.
    + destruct (d !! (l +:+ w)) as [[t sg c]|] eqn:He; [|done].
      intros [= <-]. apply Hincr. by apply (Hd (l +:+ w)).
    + apply Hd.
  - intros _ _. apply map_Forall_insert_2; [apply Hnew | done].
  - intros d ps d' _ Hd
      [(e & He & Hc & ->)|[(e & He & Hc & ->)|(He & Hi & ->)]]%register_cases.
    + done.
    + apply map_Forall_insert_2; [|done]. destruct e as [t sg c]. simpl in *.
      apply Hadd; [|done]. by apply (Hd _ _ He).
    + apply map_Forall_insert_2; [apply Hbucket | done].
Qed.

(** [addWords] is a sequence of [addWord] calls under one language, up to
    the first call that a [TypeError] interrupts. *)
Lemma addWords_addAll self corpus language tokenizer :
  exists n,
    state_of (addWords self corpus language tokenizer)
    = addAll self
        (take n (map (fun word => (word, language_or_und language))
                   (tokenizer corpus))).
Proof.
  unfold addWords. generalize (tokenizer corpus) as words.
  generalize (language_or_und language) as l. intros l words. revert self.
  induction words as [|w words IH]; intros self; [by exists 0%nat|]. simpl.
  destruct (addWord_effect self w l) as [spell|spell] eqn:Heff.
  - destruct (IH spell) as [n Hn]. exists (S n). rewrite Hn. simpl.
    unfold addAll at 2. simpl. unfold addWord. by rewrite Heff.
  - exists 1%nat. simpl. unfold addAll. simpl. unfold addWord. rewrite Heff.
    simpl. clear. by induction words.
Qed.

(** ** Nearby terms in the modes TOP and SMALLEST *)

Lemma uniform_nil : uniform [].
Proof. by intros a b ?%elem_of_nil. Qed.

Lemma uniform_singleton x : uniform [x].
Proof. by intros a b ->%list_elem_of_singleton ->%list_elem_of_singleton. Qed.

Lemma addOrTerminateEarly_uniform suggestions suggestion mode :
  mode <> ALL -> uniform suggestions ->
  uniform (addOrTerminateEarly suggestions suggestion mode).
Proof.
  intros Hmode Hu. unfold addOrTerminateEarly.
  rewrite (bool_decide_eq_true_2 _ Hmode).
  rewrite (bool_decide_eq_false_2 (mode = ALL)) by done.
  destruct suggestions as [|x rest]; simpl; [apply uniform_singleton|].
  destruct (Z.ltb_spec (EditItem.distance suggestion) (EditItem.distance x));
    simpl; [apply uniform_singleton|].
  destruct (Z.leb_spec (EditItem.distance suggestion) (EditItem.distance x));
    [|done].
  assert (Hx : x ∈ x :: rest) by left.
  intros a b Ha Hb.
  change (x :: rest ++ [suggestion]) with ((x :: rest) ++ [suggestion]) in Ha, Hb.
  apply elem_of_app in Ha as [Ha| ->%list_elem_of_singleton];
    apply elem_of_app in Hb as [Hb| ->%list_elem_of_singleton].
  - by apply Hu.
  - rewrite (Hu a x Ha Hx). lia.
  - rewrite (Hu b x Hb Hx). lia.
  - done.
Qed.

Lemma addAll_uniform self words :
  mode self <> ALL ->
  map_Forall (fun _ entry => uniform (DictionaryItem.suggestions entry))
    (dictionary self) ->
  map_Forall (fun _ entry => uniform (DictionaryItem.suggestions entry))
    (dictionary (addAll self words)).
Proof.
  revert self. induction words as [|[w l] words IH]; intros self Hmode Hself;
    [done|].
  rewrite addAll_cons. apply IH; [by rewrite addWord_mode|].
  apply (addWord_entries
           (fun entry => uniform (DictionaryItem.suggestions entry)));
    simpl; try done.
  - intros. apply uniform_nil.
  - intros. by apply addOrTerminateEarly_uniform.
  - intros. apply uniform_singleton.
Qed.

Lemma uniform_sorted suggestions :
  uniform suggestions ->
  StronglySorted (fun a b => EditItem.distance a <= EditItem.distance b)
    suggestions.
Proof.
  induction suggestions as [|x rest IH]; intros Hu; constructor.
  - apply IH. intros a b Ha Hb. apply Hu; by right.
  - apply Forall_forall. intros y Hy. rewrite (Hu x y); [lia | left | by right].
Qed.

(** C8: in the modes TOP and SMALLEST, after any sequence of [addWord]
    calls on a new engine, every list of nearby terms stored in the
    dictionary is sorted by non-decreasing distance, and its first element
    has the least distance of the list. *)
Theorem nearbyTerms_sorted maxDist md words key entry :
  md <> ALL ->
  dictionary (addAll (new maxDist (Some md)) words) !! key = Some entry ->
  StronglySorted (fun a b => EditItem.distance a <= EditItem.distance b)
    (DictionaryItem.suggestions entry)
  /\ forall first x,
       head (DictionaryItem.suggestions entry) = Some first ->
       x ∈ DictionaryItem.suggestions entry ->
       EditItem.distance first <= EditItem.distance x.
Proof.
  intros Hmd Hentry.
  assert (Hu : uniform (DictionaryItem.suggestions entry)).
  { eapply (addAll_uniform (new maxDist (Some md)) words); [done| |exact Hentry].
    apply map_Forall_empty. }
  split; [by apply uniform_sorted|].
  intros first x Hfirst Hx. rewrite (Hu first x); [lia| |done].
  by apply head_Some_elem_of.
Qed.

Lemma nearbyTerms_sorted_witness :
  let entry := DictionaryItem.mk "" [EditItem.mk "ab" 1; EditItem.mk "ac" 1] 0 in
  StronglySorted (fun a b => EditItem.distance a <= EditItem.distance b)
    (DictionaryItem.suggestions entry)
  /\ forall first x,
       head (DictionaryItem.suggestions entry) = Some first ->
       x ∈ DictionaryItem.suggestions entry ->
       EditItem.distance first <= EditItem.distance x.
Proof.
  apply (nearbyTerms_sorted (Some 2) TOP
           [("ab", "en"); ("ac", "en")] "ena").
  - done.
  - vm_compute. reflexivity.
Defined.

(** ** [distance] is symmetric *)

Example distance_ab_ba : distance "ab" "ba" = 1.
Proof. vm_compute. reflexivity. Qed.

Example distance_ca_abc : distance "ca" "abc" = 2.
Proof. vm_compute. reflexivity. Qed.

Example distance_kitten_sitting : distance "kitten" "sitting" = 3.
Proof. vm_compute. reflexivity. Qed.

Example distance_empty_left : distance "" "abc" = 3.
Proof. vm_compute. reflexivity. Qed.

Lemma last_match_le s ch k : (last_match s ch k <= k)%nat.
Proof. induction k as [|k IH]; simpl; [done|]. case_decide; lia. Qed.

Lemma border_sym INF r c : border INF c r = border INF r c.
Proof.
  unfold border.
  destruct (Nat.eqb_spec r 0), (Nat.eqb_spec c 0), (Nat.eqb_spec r 1),
    (Nat.eqb_spec c 1); try done; try lia; f_equal; lia.
Qed.

Lemma border_inner INF i j :
  (1 <= i)%nat -> (1 <= j)%nat -> border INF (i + 1) (j + 1) = None.
Proof.
  intros Hi Hj. unfold border.
  destruct (Nat.eqb_spec (i + 1) 0), (Nat.eqb_spec (j + 1) 0),
    (Nat.eqb_spec (i + 1) 1), (Nat.eqb_spec (j + 1) 1); try done; lia.
Qed.

(** The recurrence for [(b, a)] is the transpose of the one for [(a, b)]. *)
Lemma cell_sym a b r c v : cell a b r c v -> cell b a c r v.
Proof.
  induction 1 as [r c v Hr Hc Hv | i j x y z t v Hi Hj _ IHx _ IHy _ IHz _ IHt ->].
  - apply cell_border; [done..|]. by rewrite border_sym, Z.add_comm.
  - apply (cell_inner b a j i x z y t); try done.
    destruct (decide (Js.char_at a (i - 1) = Js.char_at b (j - 1))),
      (decide (Js.char_at b (j - 1) = Js.char_at a (i - 1)));
      try congruence; lia.
Qed.

(** The recurrence determines the value of a cell. *)
Lemma cell_det a b r c v : cell a b r c v -> forall v', cell a b r c v' -> v = v'.
Proof.
  induction 1 as [r c v Hr Hc Hv | i j x y z t v Hi Hj _ IHx _ IHy _ IHz _ IHt ->];
    intros v' Hv'.
  - inversion Hv' as [? ? ? _ _ Hb | i' j' ? ? ? ? ? Hi' Hj' _ _ _ _ _ Hr' Hc'];
      subst.
    + congruence.
    + rewrite border_inner in Hv by lia. done.
  - inversion Hv' as [? ? ? _ _ Hb | i' j' x' y' z' t' ? Hi' Hj' Hx Hy Hz Ht ? Hr' Hc'].
    + rewrite border_inner in Hb by lia. done.
    + assert (i' = i) as -> by lia. assert (j' = j) as -> by lia. subst.
      by rewrite (IHx _ Hx), (IHy _ Hy), (IHz _ Hz), (IHt _ Ht).
Qed.

(** *** The table holds the recurrence *)

Lemma fold_left_seq_ind {B : Type} (P : nat -> B -> Prop) (f : B -> nat -> B)
    (start len : nat) (b : B) :
  P start b ->
  (forall i b, (start <= i < start + len)%nat -> P i b -> P (S i) (f b i)) ->
  P (start + len)%nat (fold_left f (seq start len) b).
Proof.
  revert start b. induction len as [|len IH]; intros start b Hb Hf; simpl.
  - by rewrite Nat.add_0_r.
  - rewrite <- Nat.add_succ_comm. apply IH.
    + apply Hf; [lia | done].
    + intros i b' Hi. apply Hf. lia.
Qed.

Lemma last_match_step s ch k :
  (1 <= k)%nat ->
  last_match s ch k
  = if decide (Js.char_at s (k - 1) = ch) then k else last_match s ch (k - 1).
Proof. destruct k as [|k]; [lia|]. intros _. simpl. by rewrite Nat.sub_0_r. Qed.

Lemma table_inv_insert a b (cov cov' : nat -> nat -> Prop) score r0 c0 v0 :
  cell a b r0 c0 v0 -> table_inv a b cov score ->
  (forall r c, cov' r c -> (r = r0 /\ c = c0) \/ cov r c) ->
  table_inv a b cov' (<[(r0, c0) := v0]> score).
Proof.
  intros Hcell Hinv Hcov r c Hrc.
  destruct (decide ((r0, c0) = (r, c))) as [[= <- <-]|Hne].
  - exists v0. by rewrite lookup_insert_eq.
  - rewrite lookup_insert_ne by done. apply Hinv.
    destruct (Hcov r c Hrc) as [[-> ->]|]; [done | done].
Qed.

Lemma table_inv_weaken a b (cov cov' : nat -> nat -> Prop) score :
  table_inv a b cov score -> (forall r c, cov' r c -> cov r c) ->
  table_inv a b cov' score.
Proof. intros Hinv Hcov r c Hrc. by apply Hinv, Hcov. Qed.

(** The two initialisation loops (lines 323-333). *)
Lemma init_inv a b :
  let INF := Z.of_nat (String.length a) + Z.of_nat (String.length b) in
  let st :=
    fold_left (init_col a b) (seq 0 (String.length b + 1))
      (fold_left (init_row a b) (seq 0 (String.length a + 1))
         (<[(0, 0)%nat := INF]> ∅, ∅)) in
  table_inv a b (covered a b 1 1) st.1 /\ sd_inv a b 1 st.2.
Proof.
  intros INF st.
  set (covA := fun k r c : nat =>
         (r = 0 /\ c = 0)%nat \/ (1 <= r <= k /\ c <= 1)%nat).
  set (covB := fun k r c : nat =>
         covA (String.length a + 1)%nat r c \/ (r <= 1 /\ 1 <= c <= k)%nat).
  set (zero := fun sd : gmap (option ascii) nat =>
         forall ch k, sd !! ch = Some k -> k = 0%nat).
  assert (Hzero : forall sd ch, zero sd -> zero (<[ch := 0%nat]> sd)).
  { intros sd ch Hsd ch' k. rewrite lookup_insert. case_decide; [congruence|].
    apply Hsd. }
  assert (HA : (fun k (st : gmap (nat * nat) Z * gmap (option ascii) nat) =>
                  table_inv a b (covA k) st.1 /\ zero st.2)
                 (0 + (String.length a + 1))%nat
                 (fold_left (init_row a b) (seq 0 (String.length a + 1))
                    (<[(0, 0)%nat := INF]> ∅, ∅))).
  { apply fold_left_seq_ind.
    - split; [|by unfold zero; simpl; intros ch k; rewrite lookup_empty].
      apply (table_inv_insert a b (fun _ _ => False)).
      + by apply cell_border; [lia..|].
      + by intros r c [].
      + unfold covA. intros r c [?|?]; [by left | lia].
    - intros i [score sd] Hi [Hscore Hsd]. simpl. split; [|by apply Hzero].
      apply (table_inv_insert a b
               (fun r c => covA i r c \/ (r = i + 1 /\ c = 1)%nat)).
      + apply cell_border; [lia..|]. unfold border.
        by destruct (Nat.eqb_spec (i + 1) 0); [lia|].
      + apply (table_inv_insert a b (covA i)); [|done|tauto].
        apply cell_border; [lia..|]. unfold border.
        destruct (Nat.eqb_spec (i + 1) 0); [lia|]. simpl.
        destruct (Nat.eqb_spec (i + 1) 1); f_equal; lia.
      + unfold covA. intros r c. lia. }
  assert (HB : (fun k (st : gmap (nat * nat) Z * gmap (option ascii) nat) =>
                  table_inv a b (covB k) st.1 /\ zero st.2
                  /\ forall j, (j < k)%nat -> is_Some (st.2 !! Js.char_at b j))
                 (0 + (String.length b + 1))%nat st).
  { apply fold_left_seq_ind.
    - destruct HA as [HA1 HA2]. split; [|split; [done | intros; lia]].
      eapply table_inv_weaken; [exact HA1|]. unfold covB, covA. intros r c. lia.
    - intros j [score sd] Hj (Hscore & Hsd & Hdef). simpl.
      split; [|split; [by apply Hzero|]].
      + apply (table_inv_insert a b
                 (fun r c => covB j r c \/ (r = 1 /\ c = j + 1)%nat)).
        * by apply cell_border; [lia..|].
        * apply (table_inv_insert a b (covB j)); [|done|tauto].
          apply cell_border; [lia..|]. unfold border. simpl.
          destruct (Nat.eqb_spec (j + 1) 0); [lia|]. f_equal; lia.
        * unfold covB, covA. intros r c. lia.
      + intros j' Hj'. rewrite lookup_insert. case_decide; [done|].
        apply Hdef. destruct (decide (j' = j)) as [->|]; [done | lia]. }
  destruct HB as (HB1 & HB2 & HB3). split.
  - eapply table_inv_weaken; [exact HB1|].
    unfold covered, covB, covA. intros r c. lia.
  - split; [intros j Hj; apply HB3; lia|]. intros ch k Hk. simpl. by eapply HB2.
Qed.

(** One cell of the main loop (lines 338-347). *)
Lemma cell_step_inv a b sd i j score DB :
  (1 <= i <= String.length a)%nat -> (1 <= j <= String.length b)%nat ->
  sd_inv a b i sd -> table_inv a b (covered a b i j) score ->
  DB = last_match b (Js.char_at a (i - 1)) (j - 1) ->
  exists score' DB',
    cell_step a b sd i (Some (score, DB)) j = Some (score', DB')
    /\ table_inv a b (covered a b i (S j)) score'
    /\ DB' = last_match b (Js.char_at a (i - 1)) (S j - 1).
Proof.
  intros Hi Hj [Hsd1 Hsd2] Hscore ->.
  destruct (Hsd1 (j - 1)%nat) as [i1 Hi1]; [lia|].
  pose proof (Hsd2 _ _ Hi1) as Hi1'.
  set (j1 := last_match b (Js.char_at a (i - 1)) (j - 1)).
  pose proof (last_match_le a (Js.char_at b (j - 1)) (i - 1)) as Hle1.
  pose proof (last_match_le b (Js.char_at a (i - 1)) (j - 1)) as Hle2.
  fold j1 in Hle2.
  destruct (Hscore i j) as (x & Hx & Cx); [unfold covered; lia|].
  destruct (Hscore (i + 1)%nat j) as (y & Hy & Cy); [unfold covered; lia|].
  destruct (Hscore i (j + 1)%nat) as (z & Hz & Cz); [unfold covered; lia|].
  destruct (Hscore i1 j1) as (t & Ht & Ct); [unfold covered; lia|].
  assert (Hrow : (i1 <? String.length a + 2)%nat = true)
    by (apply Nat.ltb_lt; lia).
  assert (Hread : forall v : Z,
            <[(i + 1, j + 1)%nat := v]> score !! (i1, j1) = Some t).
  { intros v. rewrite lookup_insert_ne; [done|]. intros [= ? ?]. lia. }
  assert (Hcov : forall r c, covered a b i (S j) r c ->
            (r = i + 1 /\ c = j + 1)%nat \/ covered a b i j r c).
  { unfold covered. intros r c. lia. }
  assert (Hdb : forall DB',
            DB' = (if decide (Js.char_at a (i - 1) = Js.char_at b (j - 1))
                   then j else j1) ->
            DB' = last_match b (Js.char_at a (i - 1)) (S j - 1)).
  { intros DB' ->. replace (S j - 1)%nat with j by lia.
    rewrite last_match_step by lia. fold j1.
    destruct (decide (Js.char_at a (i - 1) = Js.char_at b (j - 1))),
      (decide (Js.char_at b (j - 1) = Js.char_at a (i - 1))); congruence. }
  unfold cell_step. simpl. rewrite Hi1, Hx.
  destruct (decide (Js.char_at a (i - 1) = Js.char_at b (j - 1))) as [Heq|Hne];
    simpl.
  - rewrite Hrow, Hread. simpl. eexists _, _. split; [done|].
    split; [|by apply Hdb].
    rewrite insert_insert_eq.
    eapply table_inv_insert; [|exact Hscore|exact Hcov].
    rewrite Hi1' in Ct.
    eapply (cell_inner a b i j x y z t); try done.
    rewrite decide_True by done. by rewrite Hi1'.
  - rewrite Hy. simpl. rewrite Hz. simpl. rewrite Hrow, Hread. simpl.
    eexists _, _. split; [done|].
    split; [|by apply Hdb].
    rewrite insert_insert_eq.
    eapply table_inv_insert; [|exact Hscore|exact Hcov].
    rewrite Hi1' in Ct.
    eapply (cell_inner a b i j x y z t); try done.
    rewrite decide_False by done. by rewrite Hi1'.
Qed.

(** One row of the main loop (lines 335-350). *)
Lemma row_step_inv a b i score sd :
  (1 <= i <= String.length a)%nat ->
  table_inv a b (covered a b i 1) score -> sd_inv a b i sd ->
  exists score' sd',
    row_step a b (Some (score, sd)) i = Some (score', sd')
    /\ table_inv a b (covered a b (S i) 1) score' /\ sd_inv a b (S i) sd'.
Proof.
  intros Hi Hscore Hsd. unfold row_step. simpl.
  pose proof (fold_left_seq_ind
    (fun j (st : option (gmap (nat * nat) Z * nat)) =>
       exists score' DB,
         st = Some (score', DB)
         /\ table_inv a b (covered a b i j) score'
         /\ DB = last_match b (Js.char_at a (i - 1)) (j - 1))
    (cell_step a b sd i) 1 (String.length b) (Some (score, 0%nat))) as Hfold.
  destruct Hfold as (score' & DB & -> & Hscore' & _).
  - by exists score, 0%nat.
  - intros j st Hj (sc & DB & -> & Hsc & HDB).
    apply cell_step_inv; [done | lia | done..].
  - simpl. eexists _, _. split; [done|]. split.
    + eapply table_inv_weaken; [exact Hscore'|].
      unfold covered. intros r c. lia.
    + destruct Hsd as [Hsd1 Hsd2]. split.
      * intros j Hj. rewrite lookup_insert. case_decide; [done | by apply Hsd1].
      * intros ch k. replace (S i - 1)%nat with i by lia.
        rewrite last_match_step by lia. rewrite lookup_insert.
        case_decide; [congruence | apply Hsd2].
Qed.

(** After the loops every cell is written and holds its value. *)
Lemma distance_table_inv a b :
  exists score sd,
    distance_table a b = Some (score, sd)
    /\ table_inv a b (covered a b (String.length a + 1) 1) score.
Proof.
  unfold distance_table. pose proof (init_inv a b) as Hinit.
  cbv zeta in Hinit.
  destruct (fold_left (init_col a b) _ _) as [score0 sd0].
  destruct Hinit as [Hscore Hsd]. simpl in Hscore, Hsd.
  pose proof (fold_left_seq_ind
    (fun i (st : option (gmap (nat * nat) Z * gmap (option ascii) nat)) =>
       exists score sd,
         st = Some (score, sd)
         /\ table_inv a b (covered a b i 1) score /\ sd_inv a b i sd)
    (row_step a b) 1 (String.length a) (Some (score0, sd0))) as Hfold.
  destruct Hfold as (score & sd & Hrun & Hscore' & _).
  - by exists score0, sd0.
  - intros i st Hi (sc & sd & -> & Hsc & Hsd').
    apply row_step_inv; [lia | done..].
  - exists score, sd. split; [exact Hrun|].
    by rewrite Nat.add_comm.
Qed.

(** For non-empty strings, [distance] returns the value of the recurrence
    at the last cell. *)
Lemma distance_opt_cell a b :
  a <> "" -> b <> "" ->
  exists v, distance_opt a b = Some v
            /\ cell a b (String.length a + 1) (String.length b + 1) v.
Proof.
  intros Ha Hb. unfold distance_opt.
  rewrite (proj2 (truthy_nonempty a) Ha), (proj2 (truthy_nonempty b) Hb). simpl.
  destruct (distance_table_inv a b) as (score & sd & -> & Hscore). simpl.
  apply Hscore. unfold covered. lia.
Qed.

Lemma distance_opt_sym a b : distance_opt a b = distance_opt b a.
Proof.
  destruct (decide (a = "")) as [->|Ha]; [by destruct b|].
  destruct (decide (b = "")) as [->|Hb]; [by destruct a|].
  destruct (distance_opt_cell a b Ha Hb) as (v & -> & Hv).
  destruct (distance_opt_cell b a Hb Ha) as (v' & -> & Hv').
  f_equal. eapply cell_det; [exact Hv|]. by apply cell_sym.
Qed.

Lemma distance_opt_defined a b : distance_opt a b = Some (distance a b).
Proof.
  unfold distance.
  destruct (decide (a = "")) as [->|Ha]; [done|].
  destruct (decide (b = "")) as [->|Hb]; [by destruct a|].
  by destruct (distance_opt_cell a b Ha Hb) as (v & -> & _).
Qed.

(** C5: [distance(a, b)] equals [distance(b, a)] for all strings; the
    table computation always yields a number, and that number is the same
    in both directions. *)
Theorem distance_symmetric a b :
  distance a b = distance b a
  /\ distance_opt a b = Some (distance a b)
  /\ distance_opt b a = Some (distance a b).
Proof.
  assert (Hsym : distance a b = distance b a)
    by (unfold distance; by rewrite distance_opt_sym).
  split; [done|]. split; [apply distance_opt_defined|].
  rewrite Hsym. apply distance_opt_defined.
Qed.

(** ** Further properties of [distance] *)

Lemma cell_nonneg a b r c v : cell a b r c v -> 0 <= v.
Proof.
  induction 1 as [r c v Hr Hc Hv | i j x y z t v Hi Hj _ IHx _ IHy _ IHz _ IHt ->].
  - unfold border in Hv.
    destruct (Nat.eqb_spec r 0), (Nat.eqb_spec c 0), (Nat.eqb_spec r 1),
      (Nat.eqb_spec c 1); simplify_eq; lia.
  - pose proof (last_match_le a (Js.char_at b (j - 1)) (i - 1)).
    pose proof (last_match_le b (Js.char_at a (i - 1)) (j - 1)).
    destruct (decide (Js.char_at a (i - 1) = Js.char_at b (j - 1))); lia.
Qed.

(** Rows and columns 0 hold [INF]; elsewhere the value lies between the
    difference and the greater of the two prefix lengths. *)
Lemma cell_bounds a b r c v :
  cell a b r c v ->
  (r <= String.length a + 1)%nat /\ (c <= String.length b + 1)%nat
  /\ ((r = 0 \/ c = 0)%nat ->
      v = Z.of_nat (String.length a) + Z.of_nat (String.length b))
  /\ ((1 <= r)%nat -> (1 <= c)%nat ->
      Z.abs (Z.of_nat r - Z.of_nat c) <= v
      /\ v <= Z.max (Z.of_nat r - 1) (Z.of_nat c - 1)).
Proof.
  induction 1 as [r c v Hr Hc Hv | i j x y z t v Hi Hj Cx IHx Cy IHy Cz IHz Ct IHt ->].
  - unfold border in Hv.
    destruct (Nat.eqb_spec r 0), (Nat.eqb_spec c 0), (Nat.eqb_spec r 1),
      (Nat.eqb_spec c 1); simplify_eq; lia.
  - pose proof (last_match_le a (Js.char_at b (j - 1)) (i - 1)) as Hi1.
    pose proof (last_match_le b (Js.char_at a (i - 1)) (j - 1)) as Hj1.
    apply cell_nonneg in Cx, Cy, Cz.
    destruct IHx as (_ & _ & _ & IHx), IHy as (_ & _ & _ & IHy),
      IHz as (_ & _ & _ & IHz), IHt as (_ & _ & IHt0 & IHt).
    specialize (IHx ltac:(lia) ltac:(lia)).
    specialize (IHy ltac:(lia) ltac:(lia)).
    specialize (IHz ltac:(lia) ltac:(lia)).
    repeat split; try lia.
    + destruct (decide (last_match a (Js.char_at b (j - 1)) (i - 1) = 0%nat
                        \/ last_match b (Js.char_at a (i - 1)) (j - 1) = 0%nat))
        as [Hzero|Hpos].
      * specialize (IHt0 Hzero).
        destruct (decide (Js.char_at a (i - 1) = Js.char_at b (j - 1))); lia.
      * specialize (IHt ltac:(lia) ltac:(lia)).
        destruct (decide (Js.char_at a (i - 1) = Js.char_at b (j - 1))); lia.
    + destruct (decide (Js.char_at a (i - 1) = Js.char_at b (j - 1))); lia.
Qed.

(** A cell with value 0 lies on the diagonal, over equal prefixes. *)
Lemma cell_zero a b r c v :
  cell a b r c v -> v = 0 -> (1 <= r)%nat -> (1 <= c)%nat ->
  r = c /\ forall k, (k < r - 1)%nat -> Js.char_at a k = Js.char_at b k.
Proof.
  induction 1 as [r c v Hr Hc Hv | i j x y z t v Hi Hj Cx IHx Cy _ Cz _ Ct _ ->];
    intros Hzero Hr1 Hc1.
  - unfold border in Hv.
    destruct (Nat.eqb_spec r 0), (Nat.eqb_spec c 0), (Nat.eqb_spec r 1),
      (Nat.eqb_spec c 1); simplify_eq; try lia; split; try lia; intros; lia.
  - pose proof (last_match_le a (Js.char_at b (j - 1)) (i - 1)) as Hi1.
    pose proof (last_match_le b (Js.char_at a (i - 1)) (j - 1)) as Hj1.
    pose proof (cell_nonneg _ _ _ _ _ Cx). pose proof (cell_nonneg _ _ _ _ _ Cy).
    pose proof (cell_nonneg _ _ _ _ _ Cz). pose proof (cell_nonneg _ _ _ _ _ Ct).
    destruct (decide (Js.char_at a (i - 1) = Js.char_at b (j - 1))) as [Heq|];
      [|lia].
    destruct IHx as [-> Hpre]; [lia..|]. split; [done|].
    intros k Hk. destruct (decide (k = j - 1)%nat) as [->|]; [done|].
    apply Hpre. lia.
Qed.

(** On the diagonal of a string against itself every value is 0. *)
Lemma cell_diagonal a r v : (1 <= r)%nat -> cell a a r r v -> v = 0.
Proof.
  revert v. induction r as [|r IH]; intros v Hr Hcell; [lia|].
  inversion Hcell as [? ? ? _ _ Hb | i j x y z t ? Hi Hj Cx Cy Cz Ct Hv Hr' Hc'];
    subst.
  - unfold border in Hb.
    destruct (Nat.eqb_spec (S r) 0), (Nat.eqb_spec (S r) 1); simplify_eq; lia.
  - assert (i = r) as -> by lia. assert (j = r) as -> by lia.
    apply IH in Cx; [|lia]. subst x.
    pose proof (last_match_le a (Js.char_at a (r - 1)) (r - 1)).
    pose proof (cell_nonneg _ _ _ _ _ Ct).
    rewrite decide_True by done. lia.
Qed.

Lemma string_ext (a b : string) :
  String.length a = String.length b ->
  (forall k, (k < String.length a)%nat -> Js.char_at a k = Js.char_at b k) ->
  a = b.
Proof.
  revert b. induction a as [|x a IH]; intros [|y b] Hlen Hget; try done.
  simpl in Hlen. f_equal.
  - specialize (Hget 0%nat ltac:(simpl; lia)). by injection Hget.
  - apply IH; [lia|]. intros k Hk.
    apply (Hget (S k)). simpl. lia.
Qed.

(** X1: [distance(a, b)] is 0 exactly when the two strings are equal. *)
Theorem distance_zero_iff a b : distance a b = 0 <-> a = b.
Proof.
  split.
  - intros Hzero.
    destruct (decide (a = "")) as [->|Ha].
    { destruct b; [done|]. vm_compute in Hzero. lia. }
    destruct (decide (b = "")) as [->|Hb].
    { destruct a; [done|]. unfold distance, distance_opt in Hzero.
      simpl in Hzero. lia. }
    destruct (distance_opt_cell a b Ha Hb) as (v & Hv & Hcell).
    unfold distance in Hzero. rewrite Hv in Hzero. simpl in Hzero. subst v.
    apply cell_zero in Hcell as [Hlen Hpre]; [|lia..].
    apply string_ext; [lia|]. intros k Hk. apply Hpre. lia.
  - intros <-. destruct (decide (a = "")) as [->|Ha]; [done|].
    destruct (distance_opt_cell a a Ha Ha) as (v & Hv & Hcell).
    unfold distance. rewrite Hv. simpl.
    eapply cell_diagonal; [|exact Hcell]. lia.
Qed.

(** X2: [distance(a, b)] is at least the difference of the two lengths and at
    most the greater of them. *)
Theorem distance_bounds a b :
  Z.abs (Z.of_nat (String.length a) - Z.of_nat (String.length b))
  <= distance a b
  <= Z.max (Z.of_nat (String.length a)) (Z.of_nat (String.length b)).
Proof.
  destruct (decide (a = "")) as [->|Ha].
  { unfold distance, distance_opt. destruct b; simpl; lia. }
  destruct (decide (b = "")) as [->|Hb].
  { unfold distance, distance_opt. destruct a; simpl; lia. }
  destruct (distance_opt_cell a b Ha Hb) as (v & Hv & Hcell).
  unfold distance. rewrite Hv. simpl.
  apply cell_bounds in Hcell as (_ & _ & _ & Hcell).
  specialize (Hcell ltac:(lia) ltac:(lia)). lia.
Qed.

(** ** Further properties of [computePermutations] *)

Lemma elem_of_flat_map {A B : Type} (f : A -> list B) (l : list A) (y : B) :
  y ∈ flat_map f l <-> exists x, x ∈ l /\ y ∈ f x.
Proof.
  rewrite list_elem_of_In, in_flat_map. split.
  - intros (x & Hx & Hy). exists x. by rewrite !list_elem_of_In.
  - intros (x & Hx & Hy). exists x. by rewrite <- !list_elem_of_In.
Qed.

Lemma variants_elem fuel word editDistance maxEditDistance p :
  p ∈ variants fuel word editDistance maxEditDistance ->
  exists i, (i < String.length word)%nat /\ (1 < String.length word)%nat
    /\ (p = EditItem.mk (delete_at word i) (editDistance + 1)
        \/ (editDistance + 1 < maxEditDistance
            /\ exists fuel', fuel = S fuel'
                 /\ p ∈ variants fuel' (delete_at word i) (editDistance + 1)
                         maxEditDistance)).
Proof.
  destruct fuel as [|fuel]; simpl;
    (destruct (Nat.ltb_spec 1 (String.length word)) as [Hl|Hl];
     [|by intros ?%elem_of_nil]);
    intros (i & Hi%elem_of_seq & Hp)%elem_of_flat_map; exists i;
    (split; [lia|]); (split; [done|]);
    apply elem_of_cons in Hp as [->|Hp]; try (by left);
    destruct (Z.ltb_spec (editDistance + 1) maxEditDistance);
    try (by apply elem_of_nil in Hp).
  right. split; [done|]. by exists fuel.
Qed.

Lemma variants_spec fuel word editDistance maxEditDistance p :
  p ∈ variants fuel word editDistance maxEditDistance ->
  Z.of_nat (String.length (EditItem.term p))
    + (EditItem.distance p - editDistance)
  = Z.of_nat (String.length word)
  /\ editDistance + 1 <= EditItem.distance p
     <= Z.max (editDistance + 1) maxEditDistance.
Proof.
  revert word editDistance p.
  induction fuel as [|fuel IH]; intros word ed p
    (i & Hi & Hl & [->|(HM & fuel' & Hfuel & Hp)])%variants_elem;
    try done; try (simpl; rewrite length_delete_at by done; lia).
  injection Hfuel as <-. apply IH in Hp.
  rewrite length_delete_at in Hp by done. lia.
Qed.

(** X3: The tag of a variant counts the deletions: a variant tagged [d] is
    [d - editDistance] characters shorter than the word, with [d] between
    [editDistance + 1] and the greater of that and [maxEditDistance]. *)
Theorem computePermutations_deletions word editDistance maxEditDistance p :
  p ∈ computePermutations word editDistance maxEditDistance ->
  Z.of_nat (String.length (EditItem.term p))
    + (EditItem.distance p - editDistance)
  = Z.of_nat (String.length word)
  /\ editDistance + 1 <= EditItem.distance p
     <= Z.max (editDistance + 1) maxEditDistance.
Proof.
  rewrite computePermutations_variants. apply variants_spec.
Qed.

Lemma computePermutations_deletions_witness :
  let p := EditItem.mk "tt" 2 in
  Z.of_nat (String.length (EditItem.term p)) + (EditItem.distance p - 0)
  = Z.of_nat (String.length "tent")
  /\ 0 + 1 <= EditItem.distance p <= Z.max (0 + 1) 2.
Proof.
  apply (computePermutations_deletions "tent" 0 2 (EditItem.mk "tt" 2)).
  vm_compute. do 6 right. left.
Defined.

Lemma flat_map_singleton {A B : Type} (f : A -> B) (l : list A) :
  flat_map (fun x => [f x]) l = map f l.
Proof. induction l as [|x l IH]; simpl; [done|]. by rewrite IH. Qed.

(** X4: With no budget left for a further level ([maxEditDistance] at most
    [editDistance + 1], as in every call from [lookup]) the result lists
    the deletion at each position of the word, in order and with
    repetitions, all tagged [editDistance + 1]. *)
Theorem computePermutations_one_level word editDistance maxEditDistance :
  maxEditDistance <= editDistance + 1 ->
  computePermutations word editDistance maxEditDistance
  = if (1 <? String.length word)%nat
    then map (fun i => EditItem.mk (delete_at word i) (editDistance + 1))
           (seq 0 (String.length word))
    else [].
Proof.
  intros HM. rewrite computePermutations_variants.
  assert (Hno : (editDistance + 1 <? maxEditDistance) = false) by lia.
  generalize (String.length word) at 1. intros fuel.
  destruct fuel; simpl; (destruct (1 <? String.length word)%nat; [|done]);
    rewrite Hno; apply flat_map_singleton.
Qed.

Lemma computePermutations_one_level_witness :
  computePermutations "ten" 1 0
  = [EditItem.mk "en" 2; EditItem.mk "tn" 2; EditItem.mk "te" 2].
Proof. apply (computePermutations_one_level "ten" 1 0). lia. Defined.

(** X5: A word has variants exactly when it has more than one character. *)
Theorem computePermutations_nil_iff word editDistance maxEditDistance :
  computePermutations word editDistance maxEditDistance = []
  <-> (String.length word <= 1)%nat.
Proof.
  rewrite computePermutations_variants.
  destruct (String.length word) as [|[|l]] eqn:Hlen; simpl; rewrite Hlen;
    simpl; split; try done; try lia.
Qed.

Lemma chars_append (a b : string) :
  String.list_ascii_of_string (a +:+ b)
  = String.list_ascii_of_string a ++ String.list_ascii_of_string b.
Proof.
  induction a as [|c a IH]; [done|].
  change (c :: String.list_ascii_of_string (a +:+ b)
          = c :: (String.list_ascii_of_string a ++ String.list_ascii_of_string b)).
  by rewrite IH.
Qed.

Lemma chars_substring (s : string) (start len : nat) :
  String.list_ascii_of_string (String.substring start len s)
  = take len (drop start (String.list_ascii_of_string s)).
Proof.
  revert start len. induction s as [|c s IH]; intros [|start] [|len]; simpl;
    rewrite ?IH; done.
Qed.

Lemma chars_length (s : string) :
  length (String.list_ascii_of_string s) = String.length s.
Proof. induction s as [|c s IH]; simpl; [done|]. by rewrite IH. Qed.

(** [delete_at] removes the character at position [i] and nothing else. *)
Lemma chars_delete_at (word : string) (i : nat) :
  String.list_ascii_of_string (delete_at word i)
  = take i (String.list_ascii_of_string word)
    ++ drop (S i) (String.list_ascii_of_string word).
Proof.
  unfold delete_at, Js.slice, Js.slice_from.
  rewrite chars_append, !chars_substring, drop_0, Nat.sub_0_r, Nat.add_1_r.
  f_equal. apply take_ge. rewrite length_drop, chars_length. lia.
Qed.

Lemma variants_sublist fuel word editDistance maxEditDistance p :
  p ∈ variants fuel word editDistance maxEditDistance ->
  String.list_ascii_of_string (EditItem.term p)
    `sublist_of` String.list_ascii_of_string word.
Proof.
  assert (Hdel : forall w i,
            String.list_ascii_of_string (delete_at w i)
              `sublist_of` String.list_ascii_of_string w).
  { intros w i. rewrite chars_delete_at.
    rewrite <- (take_drop i (String.list_ascii_of_string w)) at 3.
    apply sublist_app; [done|].
    replace (drop (S i) (String.list_ascii_of_string w))
      with (drop 1 (drop i (String.list_ascii_of_string w)))
      by (rewrite drop_drop; f_equal; lia).
    apply sublist_drop. }
  revert word editDistance p.
  induction fuel as [|fuel IH]; intros word ed p
    (i & Hi & Hl & [->|(HM & fuel' & Hfuel & Hp)])%variants_elem;
    try done; try apply Hdel.
  injection Hfuel as <-. etrans; [by eapply IH|]. apply Hdel.
Qed.

(** X6: Every variant is a subsequence of the word: its characters are those
    of the word, in the same order, with some left out. *)
Theorem computePermutations_subsequence word editDistance maxEditDistance p :
  p ∈ computePermutations word editDistance maxEditDistance ->
  String.list_ascii_of_string (EditItem.term p)
    `sublist_of` String.list_ascii_of_string word.
Proof.
  rewrite computePermutations_variants. apply variants_sublist.
Qed.

Lemma computePermutations_subsequence_witness :
  String.list_ascii_of_string "tt" `sublist_of` String.list_ascii_of_string "tent".
Proof.
  apply (computePermutations_subsequence "tent" 0 2 (EditItem.mk "tt" 2)).
  vm_compute. do 6 right. left.
Defined.


(** ** Further properties of [addWord] *)

Lemma register_other word language mode d ps d' (k : string) :
  register word language mode d ps = Some d' ->
  language +:+ EditItem.term ps <> k -> d' !! k = d !! k.
Proof.
  intros [(e & He & Hc & ->)|[(e & He & Hc & ->)|(He & Hi & ->)]]%register_cases Hk;
    [done | by rewrite lookup_insert_ne..].
Qed.

Lemma register_keeps word language mode d ps d' (k : string) e :
  register word language mode d ps = Some d' ->
  d !! k = Some e ->
  exists e', d' !! k = Some e'
             /\ DictionaryItem.term e' = DictionaryItem.term e
             /\ DictionaryItem.count e' = DictionaryItem.count e.
Proof.
  intros Hr He.
  destruct (decide (language +:+ EditItem.term ps = k)) as [Hk|Hk];
    [|exists e; by rewrite (register_other _ _ _ _ _ _ _ Hr Hk)].
  subst k.
  destruct (register_cases _ _ _ _ _ _ Hr)
    as [(e1 & He1 & Hc & ->)|[(e1 & He1 & Hc & ->)|(He1 & Hi & ->)]].
  - by exists e.
  - rewrite lookup_insert_eq. eexists. split; [done|]. simpl. by simplify_eq.
  - congruence.
Qed.

Lemma register_all_keeps word language mode pss d (k : string) e :
  d !! k = Some e ->
  exists e', state_of (register_all word language mode d pss) !! k = Some e'
             /\ DictionaryItem.term e' = DictionaryItem.term e
             /\ DictionaryItem.count e' = DictionaryItem.count e.
Proof.
  intros He.
  apply (register_all_invariant
           (fun d => exists e', d !! k = Some e'
              /\ DictionaryItem.term e' = DictionaryItem.term e
              /\ DictionaryItem.count e' = DictionaryItem.count e)).
  - by exists e.
  - intros d1 ps d1' _ (e1 & He1 & Ht1 & Hc1) Hr.
    destruct (register_keeps _ _ _ _ _ _ _ _ Hr He1) as (e2 & He2 & Ht2 & Hc2).
    exists e2. split; [done|]. split; congruence.
Qed.

Lemma addWord_keeps self w l (k : string) e :
  dictionary self !! k = Some e ->
  exists e', dictionary (addWord self w l) !! k = Some e'
             /\ DictionaryItem.term e' = DictionaryItem.term e
             /\ DictionaryItem.count e'
                = DictionaryItem.count e
                  + (if decide (l +:+ w = k) then 1 else 0).
Proof.
  intros He.
  destruct (addWord_cases self w l)
    as [(item & Hkey & Heff)|[(Hkey & Hi & Heff)|(Hkey & Hi & Heff)]].
  - unfold addWord. rewrite Heff. simpl. rewrite lookup_alter.
    destruct (decide (l +:+ w = k)) as [Hk|Hk].
    + rewrite <- Hk in He. rewrite He. simpl. eexists. split; [done|].
      simpl. split; [done | lia].
    + exists e. split; [done|]. split; [done | lia].
  - unfold addWord. rewrite Heff. simpl.
    destruct (decide (l +:+ w = k)) as [Hk|Hk]; [congruence|].
    exists e. split; [done|]. split; [done | lia].
  - assert (Hne : l +:+ w <> k) by congruence.
    destruct (decide (l +:+ w = k)) as [|_]; [done|]. rewrite Heff.
    destruct (register_all_keeps w l (mode self)
                (computePermutations w 0 (maxEditDistance self))
                (<[l +:+ w := DictionaryItem.mk w [] 0]> (dictionary self)) k e)
      as (e' & He' & Ht & Hc); [by rewrite lookup_insert_ne|].
    exists e'. destruct (register_all _ _ _ _ _); simpl in He'.
    + rewrite lookup_alter_ne by done. split; [done|]. split; [done | lia].
    + split; [done|]. split; [done | lia].
Qed.

(** X7: An entry is never removed and its term never changes; its count grows
    by exactly the number of later [addWord] calls whose key
    [language + word] is the key of the entry. *)
Theorem addAll_keeps_entry self words (k : string) e :
  dictionary self !! k = Some e ->
  exists e', dictionary (addAll self words) !! k = Some e'
             /\ DictionaryItem.term e' = DictionaryItem.term e
             /\ DictionaryItem.count e'
                = DictionaryItem.count e
                  + Z.of_nat (length (filter (fun wl => wl.2 +:+ wl.1 = k) words)).
Proof.
  revert self e. induction words as [|[w l] words IH]; intros self e He.
  - exists e. simpl. split; [done|]. split; [done | lia].
  - rewrite addAll_cons.
    destruct (addWord_keeps self w l k e He) as (e1 & He1 & Ht1 & Hc1).
    destruct (IH _ _ He1) as (e2 & He2 & Ht2 & Hc2).
    exists e2. split; [done|]. split; [congruence|].
    rewrite Hc2, Hc1, filter_cons. simpl. case_decide; simpl; lia.
Qed.

Lemma addAll_keeps_entry_witness :
  exists e',
    dictionary
      (addAll (addWord (new None None) "ten" "en")
         [("tent", "en"); ("ten", "en"); ("ten", "en")]) !! "enten" = Some e'
    /\ DictionaryItem.term e' = "ten"
    /\ DictionaryItem.count e' = 1 + 2.
Proof.
  apply (addAll_keeps_entry (addWord (new None None) "ten" "en")
           [("tent", "en"); ("ten", "en"); ("ten", "en")] "enten"
           (DictionaryItem.mk "ten" [] 1)).
  vm_compute. reflexivity.
Defined.

(** *** When [addWord] returns *)

Lemma register_all_clear word language mode pss d :
  clear_language language = true ->
  exists d', register_all word language mode d pss = Completed d'.
Proof.
  intros Hclear. revert d. induction pss as [|ps pss IH]; intros d; simpl;
    [by eexists|].
  unfold register, read.
  destruct (d !! (language +:+ EditItem.term ps)) as [entry|].
  - destruct (wordListContains _ _); apply IH.
  - rewrite clear_language_inherited by done. apply IH.
Qed.

(** X17: Under a language that is not the beginning of a member name of
    [Object.prototype], [addWord] returns: no [TypeError] interrupts it. *)
Theorem addWord_returns self word language :
  clear_language language = true ->
  exists spell, addWord_effect self word language = Completed spell.
Proof.
  intros Hclear. unfold addWord_effect. destruct (read _ _); [by eexists..|].
  destruct (register_all_clear word language (mode self)
              (computePermutations word 0 (maxEditDistance self))
              (<[language +:+ word := DictionaryItem.mk word [] 0]>
                 (dictionary self)) Hclear) as [d' ->].
  by eexists.
Qed.

Lemma addWord_returns_witness :
  exists spell, addWord_effect (new None None) "tent" "en" = Completed spell.
Proof. apply (addWord_returns (new None None) "tent" "en"). reflexivity. Defined.

(** X18: A [TypeError] leaves the word half added.  Under the language
    "value" the variant "Of" of the word "Ofa" has the key "valueOf", a
    member of [Object.prototype]: [addWord("Ofa", "value")] is interrupted
    after it stored the word and registered the variants "fa" and "Oa",
    before the count is incremented; a second call finds the entry and
    only increments the count. *)
Theorem addWord_interrupted :
  let first := addWord_effect (new (Some 1) None) "Ofa" "value" in
  let second := addWord_effect (state_of first) "Ofa" "value" in
  first
  = Interrupted
      {| maxEditDistance := 1; mode := ALL;
         dictionary :=
           <["valueOfa" := DictionaryItem.mk "Ofa" [] 0]>
             (<["valuefa" := DictionaryItem.mk "" [EditItem.mk "Ofa" 1] 0]>
                (<["valueOa" := DictionaryItem.mk "" [EditItem.mk "Ofa" 1] 0]>
                   ∅)) |}
  /\ second
     = Completed
         {| maxEditDistance := 1; mode := ALL;
            dictionary :=
              <["valueOfa" := DictionaryItem.mk "Ofa" [] 1]>
                (<["valuefa" := DictionaryItem.mk "" [EditItem.mk "Ofa" 1] 0]>
                   (<["valueOa" := DictionaryItem.mk "" [EditItem.mk "Ofa" 1] 0]>
                      ∅)) |}.
Proof. vm_compute. done. Qed.

(** X8: The first [addWord] of a word on a free key, when it returns, has
    stored the word with count 1; [n] further calls with the same word and
    language change nothing in the dictionary but that count, which becomes
    [n + 1]. *)
Theorem addWord_repeated self w l n spell :
  read (dictionary self) (l +:+ w) = Undefined ->
  addWord_effect self w l = Completed spell ->
  (exists e, dictionary spell !! (l +:+ w) = Some e
             /\ DictionaryItem.term e = w /\ DictionaryItem.count e = 1)
  /\ dictionary (addAll spell (replicate n (w, l)))
     = alter (fun e => DictionaryItem.mk (DictionaryItem.term e)
                         (DictionaryItem.suggestions e)
                         (DictionaryItem.count e + Z.of_nat n))
         (l +:+ w) (dictionary spell).
Proof.
  intros Hkey Heff.
  assert (Hfirst : exists e, dictionary spell !! (l +:+ w) = Some e
             /\ DictionaryItem.term e = w /\ DictionaryItem.count e = 1).
  { unfold addWord_effect in Heff. rewrite Hkey in Heff.
    destruct (register_all_keeps w l (mode self)
                (computePermutations w 0 (maxEditDistance self))
                (<[l +:+ w := DictionaryItem.mk w [] 0]> (dictionary self))
                (l +:+ w) (DictionaryItem.mk w [] 0))
      as (e' & He' & Ht & Hc); [by rewrite lookup_insert_eq|].
    destruct (register_all _ _ _ _ _); [|done]. injection Heff as <-.
    simpl in *. rewrite lookup_alter_eq, He'. simpl.
    eexists. split; [done|]. simpl. split; [done | lia]. }
  split; [done|]. destruct Hfirst as (e1 & He1 & _).
  clear Hkey Heff self. revert spell e1 He1.
  induction n as [|n IH]; intros first e1 He1; simpl.
  - symmetry. apply alter_id. intros [t sg c] _. simpl. f_equal. lia.
  - change (addAll first ((w, l) :: replicate n (w, l)))
      with (addAll (addWord first w l) (replicate n (w, l))).
    assert (Hstep : dictionary (addWord first w l)
                    = alter count_incr (l +:+ w) (dictionary first)).
    { unfold addWord, addWord_effect. by rewrite (read_Own _ _ _ He1). }
    erewrite IH; [|by rewrite Hstep, lookup_alter_eq, He1].
    rewrite Hstep, alter_alter_eq.
    apply alter_ext. intros [t sg c] _. unfold count_incr. simpl. f_equal. lia.
Qed.

Lemma addWord_repeated_witness :
  let spell := addWord (new None None) "cat" "en" in
  (exists e, dictionary spell !! "encat" = Some e
             /\ DictionaryItem.term e = "cat" /\ DictionaryItem.count e = 1)
  /\ dictionary (addAll spell (replicate 1 ("cat", "en")))
     = alter (fun e => DictionaryItem.mk (DictionaryItem.term e)
                         (DictionaryItem.suggestions e)
                         (DictionaryItem.count e + Z.of_nat 1))
         "encat" (dictionary spell).
Proof.
  apply (addWord_repeated (new None None) "cat" "en" 1); vm_compute; reflexivity.
Defined.

(** *** Nearby terms are not repeated *)

Lemma wordListContains_false (l : list EditItem.t) (v : EditItem.t) :
  wordListContains l v = false -> EditItem.term v ∉ EditItem.term <$> l.
Proof.
  unfold wordListContains, equals, term, EditItem_Word.
  induction l as [|x l IH]; simpl; [by intros _ ?%elem_of_nil|].
  intros [Hx Hl]%orb_false_iff [Heq|Hin]%elem_of_cons.
  - apply String.eqb_neq in Hx. done.
  - by apply IH.
Qed.

Lemma addOrTerminateEarly_cases suggestions suggestion mode :
  addOrTerminateEarly suggestions suggestion mode = [suggestion]
  \/ addOrTerminateEarly suggestions suggestion mode
     = suggestions ++ [suggestion]
  \/ addOrTerminateEarly suggestions suggestion mode = suggestions.
Proof.
  unfold addOrTerminateEarly. destruct suggestions as [|x rest]; simpl; [by left|].
  destruct (bool_decide (mode ≠ ALL) && _); simpl; [by left|].
  destruct (bool_decide (mode = ALL) || _); [right; by left | right; by right].
Qed.

Lemma addOrTerminateEarly_NoDup suggestions suggestion mode :
  wordListContains suggestions suggestion = false ->
  NoDup (EditItem.term <$> suggestions) ->
  NoDup (EditItem.term <$> addOrTerminateEarly suggestions suggestion mode).
Proof.
  intros Hnew%wordListContains_false Hnd.
  destruct (addOrTerminateEarly_cases suggestions suggestion mode)
    as [-> | [-> | ->]]; [| |done].
  - simpl. apply NoDup_singleton.
  - rewrite fmap_app. apply NoDup_app. split; [done|]. split.
    + intros t Ht ->%list_elem_of_singleton. done.
    + apply NoDup_singleton.
Qed.

(** X9: In a dictionary built by [addWord] calls on a new engine, in any mode,
    no list of nearby terms names the same term twice. *)
Theorem nearbyTerms_NoDup maxDist md words (key : string) entry :
  dictionary (addAll (new maxDist md) words) !! key = Some entry ->
  NoDup (EditItem.term <$> DictionaryItem.suggestions entry).
Proof.
  assert (Hall : forall self,
            map_Forall (fun _ e => NoDup (EditItem.term <$> DictionaryItem.suggestions e))
              (dictionary self) ->
            map_Forall (fun _ e => NoDup (EditItem.term <$> DictionaryItem.suggestions e))
              (dictionary (addAll self words))).
  { induction words as [|[w l] words IH]; intros self Hself; [done|].
    rewrite addAll_cons. apply IH.
    apply (addWord_entries
             (fun e => NoDup (EditItem.term <$> DictionaryItem.suggestions e)));
      simpl; try done.
    - intros. apply NoDup_nil_2.
    - intros. by apply addOrTerminateEarly_NoDup.
    - intros. apply NoDup_singleton. }
  intros Hentry. eapply (Hall (new maxDist md)); [|exact Hentry].
  apply map_Forall_empty.
Qed.

Lemma nearbyTerms_NoDup_witness :
  NoDup (EditItem.term <$> [EditItem.mk "ab" 1; EditItem.mk "ac" 1]).
Proof.
  apply (nearbyTerms_NoDup None None [("ab", "en"); ("ac", "en"); ("ab", "en")]
           "ena" (DictionaryItem.mk "" [EditItem.mk "ab" 1; EditItem.mk "ac" 1] 0)).
  vm_compute. reflexivity.
Defined.

(** *** In mode ALL references are only ever appended *)

Lemma register_prefix word language d ps d' (k : string) e :
  register word language ALL d ps = Some d' ->
  d !! k = Some e ->
  exists e', d' !! k = Some e'
             /\ DictionaryItem.suggestions e
                `prefix_of` DictionaryItem.suggestions e'.
Proof.
  intros Hr He.
  destruct (decide (language +:+ EditItem.term ps = k)) as [Hk|Hk];
    [|exists e; by rewrite (register_other _ _ _ _ _ _ _ Hr Hk)].
  subst k.
  destruct (register_cases _ _ _ _ _ _ Hr)
    as [(e1 & He1 & Hc & ->)|[(e1 & He1 & Hc & ->)|(He1 & Hi & ->)]].
  - by exists e.
  - rewrite lookup_insert_eq. eexists. split; [done|]. simpl.
    assert (Happ : forall sg x, addOrTerminateEarly sg x ALL = sg ++ [x]).
    { intros sg x. unfold addOrTerminateEarly. by destruct sg. }
    rewrite Happ. simplify_eq. by apply prefix_app_r.
  - congruence.
Qed.

Lemma addWord_prefix self w l (k : string) e :
  mode self = ALL -> dictionary self !! k = Some e ->
  exists e', dictionary (addWord self w l) !! k = Some e'
             /\ DictionaryItem.suggestions e
                `prefix_of` DictionaryItem.suggestions e'.
Proof.
  intros Hmode He.
  apply (addWord_invariant
           (fun d => exists e', d !! k = Some e'
              /\ DictionaryItem.suggestions e
                 `prefix_of` DictionaryItem.suggestions e')
           (fun d => exists e', d !! k = Some e'
              /\ DictionaryItem.suggestions e
                 `prefix_of` DictionaryItem.suggestions e')); try done.
  - by exists e.
  - intros d (e' & He' & Hpre). rewrite lookup_alter. case_decide as Hk.
    + rewrite Hk, He'. simpl. by eexists.
    + by exists e'.
  - intros Hkey _. exists e. rewrite lookup_insert_ne; [done | congruence].
  - intros d ps d' _ (e1 & He1 & Hpre1) Hr. rewrite Hmode in Hr.
    destruct (register_prefix w l d ps d' k e1 Hr He1) as (e2 & He2 & Hpre2).
    exists e2. split; [done|]. by etrans.
Qed.

(** X11: In mode ALL a list of nearby terms only grows at its end: after any
    further [addWord] calls the list an entry had is a prefix of the list
    it has. *)
Theorem addAll_ALL_appends self words (k : string) e :
  mode self = ALL -> dictionary self !! k = Some e ->
  exists e', dictionary (addAll self words) !! k = Some e'
             /\ DictionaryItem.suggestions e
                `prefix_of` DictionaryItem.suggestions e'.
Proof.
  revert self e. induction words as [|[w l] words IH]; intros self e Hmode He;
    [by exists e|].
  rewrite addAll_cons.
  destruct (addWord_prefix self w l k e Hmode He) as (e1 & He1 & Hpre1).
  destruct (IH (addWord self w l) e1) as (e2 & He2 & Hpre2);
    [by rewrite addWord_mode | done |].
  exists e2. split; [done|]. by etrans.
Qed.

Lemma addAll_ALL_appends_witness :
  exists e',
    dictionary (addAll (addWord (new None None) "ab" "en")
                  [("ac", "en"); ("a", "en")]) !! "ena" = Some e'
    /\ [EditItem.mk "ab" 1] `prefix_of` DictionaryItem.suggestions e'.
Proof.
  apply (addAll_ALL_appends (addWord (new None None) "ab" "en")
           [("ac", "en"); ("a", "en")] "ena"
           (DictionaryItem.mk "" [EditItem.mk "ab" 1] 0)).
  - reflexivity.
  - vm_compute. reflexivity.
Defined.

(** *** Every stored reference is accounted for *)

(** [indexed] survives a change of the dictionary that keeps the term
    of every entry and only adds references that are accounted for. *)
Lemma indexed_step languages maxDist (d d' : gmap string DictionaryItem.t) :
  indexed languages maxDist d ->
  (forall (k : string) e, d !! k = Some e ->
     exists e', d' !! k = Some e'
                /\ DictionaryItem.term e' = DictionaryItem.term e) ->
  (forall (k : string) entry' s,
     d' !! k = Some entry' -> s ∈ DictionaryItem.suggestions entry' ->
     (exists entry, d !! k = Some entry /\ s ∈ DictionaryItem.suggestions entry)
     \/ (exists language variant,
           language ∈ languages
           /\ k = language +:+ variant
           /\ Z.of_nat (String.length variant) + EditItem.distance s
              = Z.of_nat (String.length (EditItem.term s))
           /\ 1 <= EditItem.distance s <= Z.max 1 maxDist
           /\ exists e, d' !! (language +:+ EditItem.term s) = Some e
                        /\ DictionaryItem.term e = EditItem.term s)) ->
  indexed languages maxDist d'.
Proof.
  intros Hd Hterm Hsugg k entry' s Hentry' Hs.
  destruct (Hsugg k entry' s Hentry' Hs) as [(entry & Hentry & Hs')|Hnew];
    [|done].
  destruct (Hd k entry s Hentry Hs')
    as (lang & v & Hin & Hk & Hlen & Hdist & e & He & Ht).
  exists lang, v. repeat split; try done; try lia.
  destruct (Hterm _ _ He) as (e' & He' & Ht'). exists e'. split; [done|congruence].
Qed.

Lemma register_indexed languages maxDist word language mode d ps d' :
  language ∈ languages ->
  ps ∈ computePermutations word 0 maxDist ->
  (exists e, d !! (language +:+ word) = Some e /\ DictionaryItem.term e = word) ->
  indexed languages maxDist d ->
  register word language mode d ps = Some d' ->
  indexed languages maxDist d'.
Proof.
  intros Hlang Hps (e0 & He0 & Ht0) Hd Hr.
  rewrite computePermutations_variants in Hps.
  apply variants_spec in Hps as [Hlen Hdist].
  assert (Hnew : forall s, s = EditItem.mk word (EditItem.distance ps) ->
            exists lang variant,
              lang ∈ languages
              /\ language +:+ EditItem.term ps = lang +:+ variant
              /\ Z.of_nat (String.length variant) + EditItem.distance s
                 = Z.of_nat (String.length (EditItem.term s))
              /\ 1 <= EditItem.distance s <= Z.max 1 maxDist
              /\ exists e, d' !! (lang +:+ EditItem.term s) = Some e
                           /\ DictionaryItem.term e = EditItem.term s).
  { intros s ->. exists language, (EditItem.term ps). simpl.
    repeat split; try done; try lia.
    destruct (register_keeps word language mode d ps d' _ _ Hr He0)
      as (e' & He' & Ht' & _).
    exists e'. split; [done | congruence]. }
  apply (indexed_step languages maxDist d); [done| |].
  - intros k e He.
    destruct (register_keeps word language mode d ps d' k e Hr He)
      as (e' & He' & Ht' & _).
    by exists e'.
  - intros k entry' s Hentry' Hs.
    destruct (decide (language +:+ EditItem.term ps = k)) as [<-|Hk];
      [|left; exists entry'; by rewrite (register_other _ _ _ _ _ _ _ Hr Hk) in Hentry'].
    destruct (register_cases _ _ _ _ _ _ Hr)
      as [(e1 & He1 & Hc & ->)|[(e1 & He1 & Hc & ->)|(He1 & Hi & ->)]].
    + left. by exists entry'.
    + rewrite lookup_insert_eq in Hentry'. injection Hentry' as <-.
      simpl in Hs.
      destruct (addOrTerminateEarly_cases (DictionaryItem.suggestions e1)
                  (EditItem.mk word (EditItem.distance ps)) mode)
        as [Hcase | [Hcase | Hcase]]; rewrite Hcase in Hs.
      * apply list_elem_of_singleton in Hs. right. by apply Hnew.
      * apply elem_of_app in Hs as [Hs|Hs%list_elem_of_singleton].
        -- left. by exists e1.
        -- right. by apply Hnew.
      * left. by exists e1.
    + rewrite lookup_insert_eq in Hentry'. injection Hentry' as <-.
      simpl in Hs. apply list_elem_of_singleton in Hs. right. by apply Hnew.
Qed.

Lemma addWord_indexed languages self w l :
  l ∈ languages ->
  indexed languages (maxEditDistance self) (dictionary self) ->
  indexed languages (maxEditDistance self) (dictionary (addWord self w l)).
Proof.
  intros Hlang Hself.
  apply (addWord_invariant _
           (fun d : gmap string DictionaryItem.t =>
              indexed languages (maxEditDistance self) d
              /\ exists e, d !! (l +:+ w) = Some e /\ DictionaryItem.term e = w));
    try done.
  - intros d Hd. apply (indexed_step _ _ d); [done| |].
    + intros k e He. rewrite lookup_alter. case_decide as Hk.
      * rewrite <- Hk in He. rewrite He. simpl. by eexists.
      * by exists e.
    + intros k entry' s. rewrite lookup_alter. case_decide as Hk.
      * destruct (d !! (l +:+ w)) as [entry|] eqn:Hentry; [|done].
        simpl. intros [= <-] Hs. left. exists entry. by rewrite <- Hk.
      * intros Hentry Hs. left. by exists entry'.
  - intros Hkey _. split; [|rewrite lookup_insert_eq; by eexists].
    apply (indexed_step _ _ (dictionary self)); [done| |].
    + intros k e He. exists e. rewrite lookup_insert_ne; [done | congruence].
    + intros k entry' s. rewrite lookup_insert. case_decide as Hk.
      * intros [= <-]. simpl. by intros ?%elem_of_nil.
      * intros Hentry Hs. left. by exists entry'.
  - intros d ps d' Hps [Hd He] Hr. split; [by eapply register_indexed|].
    destruct He as (e & He & Ht).
    destruct (register_keeps w l (mode self) d ps d' _ _ Hr He)
      as (e' & He' & Ht' & _).
    exists e'. split; [done | congruence].
  - by intros d [Hd _].
Qed.

Lemma addAll_indexed languages maxDist md words :
  Forall (fun wl => wl.2 ∈ languages) words ->
  indexed languages (maxEditDistance (new maxDist md))
    (dictionary (addAll (new maxDist md) words)).
Proof.
  intros Hwords.
  cut (maxEditDistance (addAll (new maxDist md) words)
       = maxEditDistance (new maxDist md)
       /\ indexed languages (maxEditDistance (new maxDist md))
            (dictionary (addAll (new maxDist md) words))); [by intros [_ ?]|].
  apply (addAll_invariant
           (fun self =>
              maxEditDistance self = maxEditDistance (new maxDist md)
              /\ indexed languages (maxEditDistance (new maxDist md))
                   (dictionary self))).
  - split; [done|]. intros k entry s. simpl. by rewrite lookup_empty.
  - intros self w l Hin [HM Hself]. rewrite addWord_maxEditDistance.
    split; [done|]. rewrite <- HM. apply addWord_indexed; [|by rewrite HM].
    eapply Forall_forall in Hwords; [|exact Hin]. done.
Qed.

(** X10: In a dictionary built by [addWord] calls on a new engine every
    reference is accounted for: a reference [(term, distance)] under a key
    means that the key is a language followed by a string exactly
    [distance] characters shorter than [term], that [distance] lies
    between 1 and the greater of 1 and [maxEditDistance], and that [term]
    is stored as a word under that language. *)
Theorem addAll_sound_index maxDist md words (key : string) entry s :
  dictionary (addAll (new maxDist md) words) !! key = Some entry ->
  s ∈ DictionaryItem.suggestions entry ->
  exists language variant,
    key = language +:+ variant
    /\ Z.of_nat (String.length variant) + EditItem.distance s
       = Z.of_nat (String.length (EditItem.term s))
    /\ 1 <= EditItem.distance s
       <= Z.max 1 (maxEditDistance (new maxDist md))
    /\ exists e,
         dictionary (addAll (new maxDist md) words)
           !! (language +:+ EditItem.term s) = Some e
         /\ DictionaryItem.term e = EditItem.term s.
Proof.
  intros Hentry Hs.
  assert (Hwords : Forall (fun wl : string * string => wl.2 ∈ words.*2) words).
  { apply Forall_forall. intros [w l] Hin. apply list_elem_of_fmap.
    by exists (w, l). }
  destruct (addAll_indexed (words.*2) maxDist md words Hwords key entry s
              Hentry Hs) as (lang & v & _ & Hrest).
  by exists lang, v.
Qed.

Lemma addAll_sound_index_witness :
  exists language variant,
    "entt" = language +:+ variant
    /\ Z.of_nat (String.length variant) + 2 = Z.of_nat (String.length "tent")
    /\ 1 <= 2 <= Z.max 1 (maxEditDistance (new None None))
    /\ exists e,
         dictionary (addAll (new None None) [("tent", "en"); ("tint", "en")])
           !! (language +:+ "tent") = Some e
         /\ DictionaryItem.term e = "tent".
Proof.
  apply (addAll_sound_index None None [("tent", "en"); ("tint", "en")] "entt"
           (DictionaryItem.mk "" [EditItem.mk "tent" 2; EditItem.mk "tint" 2] 0)
           (EditItem.mk "tent" 2)).
  - vm_compute. reflexivity.
  - left.
Defined.

(** ** Invariants of the [lookup] loop *)

Lemma wordListContains_Hollow (suggestions : list suggested) d :
  wordListContains suggestions (Hollow d) = false.
Proof.
  unfold wordListContains, equals. by induction suggestions.
Qed.

(** What [lookup] returns is [sort] of suggestions with the property,
    possibly followed by one item taken from an inherited member. *)
Lemma lookup_step_invariant global_mode self word language
    (P : list suggested -> Prop) cs suggestions :
  kept_by_hit self language P ->
  kept_by_nearby self word language P ->
  P suggestions ->
  match lookup_step global_mode self word language cs suggestions with
  | Return result =>
      exists suggestions' tail,
        P suggestions'
        /\ (tail = [] \/ exists d, tail = [Hollow d])
        /\ result = sort global_mode (suggestions' ++ tail)
  | Continue _ suggestions' => P suggestions'
  | Raise => True
  end.
Proof.
  intros P_hit P_nearby Hs.
  assert (Hret : forall sg, P sg ->
            exists suggestions' tail,
              P suggestions'
              /\ (tail = [] \/ exists d, tail = [Hollow d])
              /\ sort global_mode sg = sort global_mode (suggestions' ++ tail)).
  { intros sg Hsg. exists sg, []. rewrite app_nil_r. auto. }
  unfold lookup_step. destruct cs as [|c rest]; [by apply Hret|].
  destruct (_ || (maxEditDistance self <? EditItem.distance c)) eqn:Hstop;
    [by apply Hret|].
  apply orb_false_iff in Hstop as [_ HM].
  unfold read.
  destruct (dictionary self !! (language +:+ EditItem.term c)) as [entry|] eqn:He.
  - assert (Hfold : forall sg, P sg ->
              P (fold_left (visit_nearby self word language c)
                   (DictionaryItem.suggestions entry) sg)).
    { intros sg Hsg. apply fold_left_invariant; [done|].
      intros sg' s Hin Hsg'. by eapply P_nearby. }
    unfold push_hit. destruct (wordListContains suggestions _) eqn:Hc; simpl.
    + by apply Hfold.
    + assert (Hpush : P (suggestions ++
                [Complete (SuggestItem.mk (DictionaryItem.term entry)
                             (EditItem.distance c) (DictionaryItem.count entry))])).
      { apply P_hit; [done | lia | done..]. }
      destruct (bool_decide _ && _); [by apply Hret | by apply Hfold].
  - destruct (inherited _); [|done].
    unfold push_hit. rewrite wordListContains_Hollow. simpl.
    destruct (bool_decide _ && _); [|done].
    exists suggestions, [Hollow (EditItem.distance c)]. eauto.
Qed.

Lemma lookup_loop_invariant global_mode self word language
    (P : list suggested -> Prop) fuel cs suggestions out :
  kept_by_hit self language P ->
  kept_by_nearby self word language P ->
  P suggestions ->
  lookup_loop global_mode self word language fuel cs suggestions = Some out ->
  out = TypeError
  \/ exists suggestions' tail,
       P suggestions'
       /\ (tail = [] \/ exists d, tail = [Hollow d])
       /\ out = Normal (sort global_mode (suggestions' ++ tail)).
Proof.
  intros P_hit P_nearby. revert cs suggestions.
  induction fuel as [|fuel IH]; intros cs sg Hsg; [done|].
  simpl.
  pose proof (lookup_step_invariant global_mode self word language P cs sg
                P_hit P_nearby Hsg) as Hstep.
  destruct (lookup_step global_mode self word language cs sg).
  - destruct Hstep as (sg' & tail & HP & Htail & ->). intros [= <-].
    right. by exists sg', tail.
  - by apply IH.
  - intros [= <-]. by left.
Qed.

(** ** The documented constraint on language identifiers *)

Lemma append_prefix (l l' t v : string) :
  l +:+ t = l' +:+ v -> String.prefix l l' = true \/ String.prefix l' l = true.
Proof.
  revert l'. induction l as [|c l IH]; intros l' Heq; [left; by destruct l'|].
  destruct l' as [|c' l']; [by right|].
  change (String c (l +:+ t) = String c' (l' +:+ v)) in Heq.
  injection Heq as -> Heq. simpl. destruct (ascii_dec c' c'); [|done].
  by apply IH.
Qed.

Lemma prefix_free_eq languages l l' :
  prefix_free languages = true -> l ∈ languages -> l' ∈ languages ->
  String.prefix l l' = true -> l = l'.
Proof.
  unfold prefix_free. rewrite forallb_forall.
  intros Hfree Hl%list_elem_of_In Hl'%list_elem_of_In Hp.
  specialize (Hfree l Hl). rewrite forallb_forall in Hfree.
  specialize (Hfree l' Hl'). rewrite Hp in Hfree. simpl in Hfree.
  by apply String.eqb_eq.
Qed.

Lemma indexed_refs_stored languages maxDist d language :
  prefix_free languages = true -> language ∈ languages ->
  indexed languages maxDist d -> refs_stored language d.
Proof.
  intros Hfree Hlang Hidx t entry s Hentry Hs.
  destruct (Hidx _ _ _ Hentry Hs) as (l' & v & Hl' & Hk & _ & _ & He).
  destruct (append_prefix _ _ _ _ Hk) as [Hp|Hp].
  - by rewrite (prefix_free_eq _ _ _ Hfree Hlang Hl' Hp).
  - by rewrite (prefix_free_eq _ _ _ Hfree Hl' Hlang Hp) in He.
Qed.

Lemma addAll_refs_stored maxDist md words language :
  prefix_free (language :: words.*2) = true ->
  refs_stored language (dictionary (addAll (new maxDist md) words)).
Proof.
  intros Hfree.
  eapply (indexed_refs_stored (language :: words.*2)); [done | left |].
  apply addAll_indexed. apply Forall_forall. intros [w l] Hin. right.
  apply list_elem_of_fmap. by exists (w, l).
Qed.

Lemma refs_stored_read language d (t : string) entry s :
  refs_stored language d ->
  d !! (language +:+ t) = Some entry ->
  s ∈ DictionaryItem.suggestions entry ->
  exists e, read d (language +:+ EditItem.term s) = Own e
            /\ DictionaryItem.term e = EditItem.term s.
Proof.
  intros Hrefs He Hs. destruct (Hrefs t entry s He Hs) as (e & Hlook & Ht).
  exists e. split; [by apply read_Own | done].
Qed.

(** ** Ordering of the result, continued *)



(** Without the constraint the order can fail: with the languages "value"
    and "valueX" the key of the nearby term "Of" of "valueX" read under
    "value" is "valueOf", a member of [Object.prototype].  The item pushed
    for it has no count, the comparator answers [NaN] next to it, and the
    list comes back in the order of discovery: "af" (count 1) before "bf"
    (count 5), both at distance 1. *)
Lemma lookup_unordered :
  let spell :=
    addAll (new None None)
      [("af", "value"); ("bf", "value"); ("bf", "value"); ("bf", "value");
       ("bf", "value"); ("bf", "value");
       ("af", "valueX"); ("Of", "valueX"); ("bf", "valueX")] in
  lookup None spell "Xf" "value"
  = Some (Normal [SuggestItem.mk "af" 1 1; SuggestItem.mk "bf" 1 5]).
Proof. vm_compute. done. Qed.



(** ** Further properties of [lookup] *)

Lemma sort_insert_elem {A} cmp (x y : A) l :
  y ∈ sort_insert cmp x l <-> y = x \/ y ∈ l.
Proof.
  induction l as [|z l IH]; simpl.
  - rewrite list_elem_of_singleton, elem_of_nil. tauto.
  - destruct (0 <? _); rewrite !elem_of_cons, ?IH; tauto.
Qed.

Lemma array_sort_elem {A} cmp (y : A) l : y ∈ array_sort cmp l <-> y ∈ l.
Proof.
  induction l as [|x l IH]; simpl; [done|].
  by rewrite sort_insert_elem, elem_of_cons, IH.
Qed.

(** What [sort] returns was collected with a term that is not empty. *)
Lemma sort_elem this_mode suggestions s :
  s ∈ sort this_mode suggestions ->
  Complete s ∈ suggestions /\ SuggestItem.term s <> "".
Proof.
  unfold sort.
  assert (Hall : forall x,
            x ∈ omap kept (array_sort compare_suggestions suggestions) ->
            Complete x ∈ suggestions /\ SuggestItem.term x <> "").
  { intros x [Hx Ht]%elem_of_omap_kept. split; [|done].
    by apply array_sort_elem in Hx. }
  destruct (omap kept _) as [|first [|second rest]]; try by apply Hall.
  destruct (bool_decide _); [|by apply Hall].
  intros ->%list_elem_of_singleton. apply Hall. left.
Qed.

Lemma sort_keeps this_mode suggestions x :
  this_mode <> Some TOP -> SuggestItem.term x <> "" ->
  Complete x ∈ suggestions -> x ∈ sort this_mode suggestions.
Proof.
  intros Hmode Hterm Hx. unfold sort.
  assert (Hin : x ∈ omap kept (array_sort compare_suggestions suggestions)).
  { apply list_elem_of_omap. exists (Complete x). split.
    - by apply array_sort_elem.
    - simpl. by rewrite (proj2 (truthy_nonempty _) Hterm). }
  destruct (omap kept _) as [|first [|second rest]]; try done.
  by rewrite bool_decide_eq_false_2.
Qed.

Lemma elem_of_app_tail (suggestions tail : list suggested) s :
  tail = [] \/ (exists d, tail = [Hollow d]) ->
  Complete s ∈ suggestions ++ tail -> Complete s ∈ suggestions.
Proof.
  intros [->|[d ->]]; [by rewrite app_nil_r|].
  intros [?|Hin%list_elem_of_singleton]%elem_of_app; done.
Qed.

(** X12: On an engine without words [lookup] never returns a suggestion,
    for any word and language: it returns the empty list, or a
    [TypeError] interrupts it. *)
Theorem lookup_new_engine gm maxDist md word language :
  lookup gm (new maxDist md) word language = Some (Normal [])
  \/ lookup gm (new maxDist md) word language = Some TypeError.
Proof.
  destruct (lookup_defined gm (new maxDist md) word language) as [out Hout].
  rewrite Hout. unfold lookup in Hout.
  apply (lookup_loop_invariant gm _ word _ (fun sg => sg = [])) in Hout;
    cycle 1.
  - intros c entry sg _ _ He. simpl in He. by rewrite lookup_empty in He.
  - intros c entry sg s He. simpl in He. by rewrite lookup_empty in He.
  - done.
  - destruct Hout as [->|(sg & tail & -> & Htail & ->)]; [by right|].
    left. destruct Htail as [->|[d ->]]; done.
Qed.

Lemma visit_nearby_from self word language candidate suggestions suggestion :
  Forall (from_dictionary_suggested self language) suggestions ->
  Forall (from_dictionary_suggested self language)
    (visit_nearby self word language candidate suggestions suggestion).
Proof.
  intros Hs.
  assert (Hpush : forall sg d,
            Forall (from_dictionary_suggested self language) sg ->
            Forall (from_dictionary_suggested self language)
              (push_verified self language sg suggestion d)).
  { intros sg d Hsg. unfold push_verified.
    destruct (Z.ltb_spec d (maxEditDistance self)); [|done].
    destruct (read _ _) as [di| |] eqn:Hdi; [| |done].
    - apply Forall_app. split; [done|]. apply Forall_singleton.
      intros s [= <-]. split; [simpl; lia|].
      exists (EditItem.term suggestion), di. by apply read_Own_inv in Hdi.
    - apply Forall_app. split; [done|]. by apply Forall_singleton. }
  unfold visit_nearby.
  repeat match goal with
         | |- context [if ?b then _ else _] => destruct b
         | |- context [match first_distance ?l with _ => _ end] =>
             destruct (first_distance l)
         end; try done; by apply Hpush.
Qed.

(** X13: Every suggestion [lookup] returns has a non-empty term, a distance of
    at most [maxEditDistance], and the term and count of an entry stored
    under the language of the lookup. *)
Theorem lookup_suggestions_from_dictionary gm self word language :
  exists out,
    lookup gm self word language = Some out
    /\ forall result, out = Normal result ->
       forall s, s ∈ result ->
         SuggestItem.term s <> ""
         /\ SuggestItem.distance s <= maxEditDistance self
         /\ exists t e,
              dictionary self !! (language_or_und language +:+ t) = Some e
              /\ DictionaryItem.term e = SuggestItem.term s
              /\ DictionaryItem.count e = SuggestItem.count s.
Proof.
  destruct (lookup_defined gm self word language) as [out Hout].
  exists out. split; [done|]. intros result -> s Hs. unfold lookup in Hout.
  apply (lookup_loop_invariant gm self word _
           (Forall (from_dictionary_suggested self (language_or_und language))))
    in Hout; cycle 1.
  - intros c entry sg Hsg HM He _. apply Forall_app. split; [done|].
    apply Forall_singleton. intros s' [= <-]. split; [done|].
    by exists (EditItem.term c), entry.
  - intros c entry sg s' _ _ Hsg. by apply visit_nearby_from.
  - constructor.
  - destruct Hout as [?|(sg & tail & Hsg & Htail & [= ->])]; [done|].
    apply sort_elem in Hs as [Hs Ht]. split; [done|].
    apply elem_of_app_tail in Hs; [|done].
    eapply Forall_forall in Hsg; [|exact Hs]. by apply Hsg.
Qed.

(** *** The receiver of [sort] *)

(** X16: The cut to one suggestion at line 155 follows the [mode] of the global
    object alone: when that is TOP, [lookup] returns at most one
    suggestion on every engine, whatever the mode of the engine. *)
Theorem lookup_global_TOP self word language :
  exists out,
    lookup (Some TOP) self word language = Some out
    /\ forall result, out = Normal result -> (length result <= 1)%nat.
Proof.
  destruct (lookup_defined (Some TOP) self word language) as [out Hout].
  exists out. split; [done|]. intros result ->.
  apply lookup_loop_return in Hout as [suggestions ->]. unfold sort.
  destruct (omap kept _) as [|first [|second rest]]; simpl; lia.
Qed.

(** *** In mode ALL an added word is found again *)

Lemma addAll_keeps self words (k : string) e :
  dictionary self !! k = Some e ->
  exists e', dictionary (addAll self words) !! k = Some e'
             /\ DictionaryItem.term e' = DictionaryItem.term e.
Proof.
  revert self e. induction words as [|[w l] words IH]; intros self e He;
    [by exists e|].
  rewrite addAll_cons.
  destruct (addWord_keeps self w l k e He) as (e1 & He1 & Ht1 & _).
  destruct (IH _ _ He1) as (e2 & He2 & Ht2). exists e2. split; [done|congruence].
Qed.

(** On a free key, [addWord] stores the word as the term, also when a
    [TypeError] interrupts it. *)
Lemma addWord_fresh self w l :
  read (dictionary self) (l +:+ w) = Undefined ->
  exists e, dictionary (addWord self w l) !! (l +:+ w) = Some e
            /\ DictionaryItem.term e = w.
Proof.
  intros Hkey. unfold addWord, addWord_effect. rewrite Hkey.
  destruct (register_all_keeps w l (mode self)
              (computePermutations w 0 (maxEditDistance self))
              (<[l +:+ w := DictionaryItem.mk w [] 0]> (dictionary self))
              (l +:+ w) (DictionaryItem.mk w [] 0))
    as (e' & He' & Ht & _); [by rewrite lookup_insert_eq|].
  destruct (register_all _ _ _ _ _); simpl in *.
  - rewrite lookup_alter_eq, He'. simpl. by eexists.
  - by exists e'.
Qed.

Lemma visit_nearby_ALL self word language candidate suggestions suggestion x :
  mode self = ALL -> x ∈ suggestions ->
  x ∈ visit_nearby self word language candidate suggestions suggestion.
Proof.
  intros Hmode Hx.
  assert (Hpush : forall d, x ∈ push_verified self language suggestions suggestion d).
  { intros d. unfold push_verified. destruct (d <? maxEditDistance self); [|done].
    destruct (read _ _); [| |done]; apply elem_of_app; by left. }
  unfold visit_nearby. rewrite Hmode.
  destruct (wordListContains suggestions suggestion); [done|].
  destruct (first_distance suggestions); simpl; apply Hpush.
Qed.

(** X14: In mode ALL, for a non-empty word and language, [maxEditDistance >= 0]
    and a global object whose [mode] is not TOP: once [addWord] stored the
    word on a free key, every list that [lookup] of that word returns holds
    it with distance 0, whatever was added afterwards. *)
Theorem lookup_ALL_finds_word gm self word language later :
  gm <> Some TOP -> mode self = ALL -> 0 <= maxEditDistance self ->
  word <> "" -> language <> "" ->
  read (dictionary self) (language +:+ word) = Undefined ->
  exists out,
    lookup gm (addAll (addWord self word language) later) word language
    = Some out
    /\ forall result, out = Normal result ->
         exists count, SuggestItem.mk word 0 count ∈ result.
Proof.
  intros Hgm Hmode HM Hword Hlang Hkey.
  set (spell := addAll (addWord self word language) later).
  destruct (addWord_fresh self word language Hkey) as (e0 & He0 & Ht0).
  destruct (addAll_keeps (addWord self word language) later
              (language +:+ word) e0 He0) as (e & He & Ht).
  fold spell in He. rewrite Ht0 in Ht.
  assert (Hmode' : mode spell = ALL)
    by (unfold spell; by rewrite addAll_mode, addWord_mode).
  assert (HM' : (maxEditDistance spell <? 0) = false)
    by (unfold spell; rewrite addAll_maxEditDistance, addWord_maxEditDistance; lia).
  destruct (lookup_defined gm spell word language) as [out Hout].
  exists out. split; [done|]. intros result ->.
  exists (DictionaryItem.count e).
  unfold lookup in Hout.
  assert (HL : language_or_und language = language).
  { unfold language_or_und. by rewrite (proj2 (truthy_nonempty language)). }
  rewrite HL in Hout. simpl in Hout.
  rewrite HM', (read_Own _ _ _ He), Hmode', Ht in Hout. simpl in Hout.
  apply (lookup_loop_invariant gm spell word language
           (fun sg => Complete (SuggestItem.mk word 0 (DictionaryItem.count e))
                      ∈ sg)) in Hout; cycle 1.
  - intros c entry sg Hsg _ _ _. apply elem_of_app. by left.
  - intros c entry sg s _ _ Hsg. by apply visit_nearby_ALL.
  - apply (fold_left_invariant
             (fun sg => Complete (SuggestItem.mk word 0 (DictionaryItem.count e))
                        ∈ sg)).
    + left.
    + intros sg s _ Hsg. by apply visit_nearby_ALL.
  - destruct Hout as [?|(sg & tail & Hsg & Htail & [= ->])]; [done|].
    apply sort_keeps; [done..|]. apply elem_of_app. by left.
Qed.

Lemma lookup_ALL_finds_word_witness :
  exists out,
    lookup None (addAll (addWord (new None None) "ten" "en")
                   [("tent", "en"); ("tend", "en")]) "ten" "en"
    = Some out
    /\ forall result, out = Normal result ->
         exists count, SuggestItem.mk "ten" 0 count ∈ result.
Proof.
  apply (lookup_ALL_finds_word None (new None None) "ten" "en"
           [("tent", "en"); ("tend", "en")]); try done.
Defined.

(** *** Suggestions are not repeated *)

Lemma wordListContains_terms {B : Type} `{Word B}
    (suggestions : list suggested) (v : B) t :
  term v = Some t -> wordListContains suggestions v = false ->
  t ∉ terms suggestions.
Proof.
  intros Hv. unfold wordListContains, equals, terms. rewrite Hv.
  induction suggestions as [|x l IH]; simpl; [by intros _ ?%elem_of_nil|].
  intros [Hx Hl]%orb_false_iff. destruct x as [s|d]; simpl in *; [|by apply IH].
  intros [Heq|Hin]%elem_of_cons; [|by apply IH].
  apply String.eqb_neq in Hx. done.
Qed.

Lemma terms_snoc suggestions s :
  SuggestItem.term s ∉ terms suggestions -> NoDup (terms suggestions) ->
  NoDup (terms (suggestions ++ [Complete s])).
Proof.
  intros Hx Hnd. unfold terms. rewrite omap_app. apply NoDup_app.
  split; [done|]. split.
  - intros t Ht ->%list_elem_of_singleton. done.
  - apply NoDup_singleton.
Qed.

Lemma visit_nearby_NoDup self word language candidate suggestions suggestion :
  (exists e, read (dictionary self) (language +:+ EditItem.term suggestion)
             = Own e
             /\ DictionaryItem.term e = EditItem.term suggestion) ->
  NoDup (terms suggestions) ->
  NoDup (terms (visit_nearby self word language candidate suggestions suggestion)).
Proof.
  intros (e & Hread & Ht) Hnd. unfold visit_nearby.
  destruct (wordListContains suggestions suggestion) eqn:Hc; [done|].
  apply (wordListContains_terms _ _ (EditItem.term suggestion)) in Hc; [|done].
  assert (Hpush : forall sg d,
            EditItem.term suggestion ∉ terms sg ->
            NoDup (terms sg) ->
            NoDup (terms (push_verified self language sg suggestion d))).
  { intros sg d Hnew Hsg. unfold push_verified.
    destruct (d <? maxEditDistance self); [|done]. rewrite Hread.
    apply terms_snoc; [|done]. simpl. by rewrite Ht. }
  destruct (first_distance suggestions); [|by apply Hpush].
  destruct (bool_decide _); [|by apply Hpush].
  destruct (_ <? z).
  - apply Hpush; [by intros ?%elem_of_nil | apply NoDup_nil_2].
  - destruct (z <? _); [done | by apply Hpush].
Qed.

Lemma sort_insert_Permutation {A} cmp (x : A) l : sort_insert cmp x l ≡ₚ x :: l.
Proof.
  induction l as [|y l IH]; simpl; [done|].
  destruct (0 <? _); [|done]. rewrite IH. apply Permutation_swap.
Qed.

Lemma array_sort_Permutation {A} cmp (l : list A) : array_sort cmp l ≡ₚ l.
Proof.
  induction l as [|x l IH]; simpl; [done|].
  by rewrite sort_insert_Permutation, IH.
Qed.

Lemma kept_terms_sublist (l : list suggested) :
  SuggestItem.term <$> omap kept l `sublist_of` terms l.
Proof.
  unfold terms. induction l as [|x l IH]; simpl; [done|].
  destruct x as [s|d]; simpl; [|done].
  destruct (Js.truthy _); simpl; [by apply sublist_skip | by apply sublist_cons].
Qed.

Lemma sort_NoDup this_mode suggestions :
  NoDup (terms suggestions) ->
  NoDup (SuggestItem.term <$> sort this_mode suggestions).
Proof.
  intros Hnd. unfold sort.
  assert (Hf : NoDup (SuggestItem.term <$>
            omap kept (array_sort compare_suggestions suggestions))).
  { eapply sublist_NoDup; [|apply kept_terms_sublist].
    unfold terms. by rewrite array_sort_Permutation. }
  destruct (omap kept _) as [|first [|second rest]]; try done.
  destruct (bool_decide _); [apply NoDup_singleton | done].
Qed.

(** X15: On an engine built by [addWord] calls, when no language identifier
    in use (those of the calls and [language || 'und'] of the lookup) is
    the beginning of another, no two suggestions that [lookup] returns have
    the same term. *)
Theorem lookup_NoDup gm maxDist md words word language :
  prefix_free (language_or_und language :: words.*2) = true ->
  exists out,
    lookup gm (addAll (new maxDist md) words) word language = Some out
    /\ forall result, out = Normal result ->
         NoDup (SuggestItem.term <$> result).
Proof.
  intros Hfree.
  destruct (lookup_defined gm (addAll (new maxDist md) words) word language)
    as [out Hout].
  exists out. split; [done|]. intros result ->. unfold lookup in Hout.
  apply (lookup_loop_invariant gm _ word _ (fun sg => NoDup (terms sg)))
    in Hout; cycle 1.
  - intros c entry sg Hsg _ _ Hc.
    apply (wordListContains_terms _ _ (DictionaryItem.term entry)) in Hc;
      [|done].
    by apply terms_snoc.
  - intros c entry sg s He Hs Hsg. apply visit_nearby_NoDup; [|done].
    eapply refs_stored_read; [|done..]. by apply addAll_refs_stored.
  - apply NoDup_nil_2.
  - destruct Hout as [?|(sg & tail & Hsg & Htail & [= ->])]; [done|].
    apply sort_NoDup. unfold terms. rewrite omap_app.
    destruct Htail as [->|[d ->]]; simpl; by rewrite app_nil_r.
Qed.

Lemma lookup_NoDup_witness :
  exists out,
    lookup None (addAll (new None None) [("ten", "en"); ("tent", "en")])
      "tem" "en" = Some out
    /\ forall result, out = Normal result ->
         NoDup (SuggestItem.term <$> result).
Proof.
  apply (lookup_NoDup None None None [("ten", "en"); ("tent", "en")] "tem" "en").
  reflexivity.
Defined.

(** ** Exact matches in the modes TOP and SMALLEST *)

(** C2: a word added verbatim can be missing from the result.  After
    [addWord("tent", "en")] the key "enten" holds the nearby-term entry of
    the variant "ten", without a term; [addWord("ten", "en")] finds that
    entry at line 92 and only increments its count (see C3).  In the modes
    SMALLEST and TOP, [lookup("ten", "en")] then stops at that entry and
    returns no suggestion at all. *)
Theorem lookup_exact_match_missed :
  let words := [("tent", "en"); ("ten", "en")] in
  let smallest := addAll (new None (Some SMALLEST)) words in
  let top := addAll (new None (Some TOP)) words in
  dictionary smallest !! "enten"
    = Some (DictionaryItem.mk "" [EditItem.mk "tent" 1] 1)
  /\ lookup None smallest "ten" "en" = Some (Normal [])
  /\ lookup None top "ten" "en" = Some (Normal []).
Proof. vm_compute. done. Qed.

(** X20: For a non-empty word and a non-empty language, an engine in mode
    TOP or SMALLEST with [maxEditDistance >= 0], and a key
    [language + word] that is free (no entry, no inherited member): after
    [addWord(word, language)] and any further [addWord] calls,
    [lookup(word, language)] returns exactly one suggestion, with distance 0
    and the word as its term. *)
Theorem lookup_exact_match gm self word language later :
  mode self <> ALL -> 0 <= maxEditDistance self ->
  word <> "" -> language <> "" ->
  read (dictionary self) (language +:+ word) = Undefined ->
  exists count,
    lookup gm (addAll (addWord self word language) later) word language
    = Some (Normal [SuggestItem.mk word 0 count]).
Proof.
  intros Hmode HM Hword Hlang Hkey.
  set (spell := addAll (addWord self word language) later).
  destruct (addWord_fresh self word language Hkey) as (e0 & He0 & Ht0).
  destruct (addAll_keeps (addWord self word language) later
              (language +:+ word) e0 He0) as (e & He & Ht).
  fold spell in He. rewrite Ht0 in Ht.
  assert (Hmode' : mode spell <> ALL)
    by (unfold spell; by rewrite addAll_mode, addWord_mode).
  assert (HM' : (maxEditDistance spell <? 0) = false)
    by (unfold spell; rewrite addAll_maxEditDistance, addWord_maxEditDistance; lia).
  exists (DictionaryItem.count e). unfold lookup.
  assert (HL : language_or_und language = language).
  { unfold language_or_und. by rewrite (proj2 (truthy_nonempty language)). }
  rewrite HL. simpl.
  rewrite HM', (read_Own _ _ _ He), (bool_decide_eq_true_2 _ Hmode'), Ht.
  simpl. unfold sort. simpl. by rewrite (proj2 (truthy_nonempty word)).
Qed.

Lemma lookup_exact_match_witness :
  exists count,
    lookup None
      (addAll (addWord (new None (Some SMALLEST)) "ten" "en") [("tent", "en")])
      "ten" "en"
    = Some (Normal [SuggestItem.mk "ten" 0 count]).
Proof.
  apply (lookup_exact_match None (new None (Some SMALLEST)) "ten" "en"
           [("tent", "en")]); try done.
Defined.

(** ** The scenario "in" / "nn" *)

(** C6: with [maxEditDistance = 1], in every mode, after
    [addWord("in", "en")] the call [lookup("nn", "en")] returns no
    suggestion: the reference to "in" found under "n" has distance 1, and
    line 191 only accepts a distance strictly below [maxEditDistance].  The
    other path (lines 160-172) does return a word at that distance:
    [lookup("inn", "en")] on the same engine suggests "in" with distance
    1. *)
Theorem lookup_nn_maxEditDistance_1 gm md :
  let spell := addWord (new (Some 1) md) "in" "en" in
  lookup gm spell "nn" "en" = Some (Normal [])
  /\ lookup gm spell "inn" "en" = Some (Normal [SuggestItem.mk "in" 1 1]).
Proof. destruct md as [[]|]; vm_compute; done. Qed.

(** X21: On a new engine with [maxEditDistance >= 2], in any mode, after
    [addWord("in", "en")] the call [lookup("nn", "en")] returns the
    suggestion with term "in", distance 1 and count 1. *)
Theorem lookup_nn_suggests_in gm maxDist md :
  2 <= maxDist ->
  lookup gm (addWord (new (Some maxDist) md) "in" "en") "nn" "en"
  = Some (Normal [SuggestItem.mk "in" 1 1]).
Proof.
  intros HM.
  destruct maxDist as [|[p|p|]|p]; try lia;
    destruct md as [[]|]; vm_compute; reflexivity.
Qed.

Lemma lookup_nn_suggests_in_witness :
  lookup None (addWord (new (Some 2) None) "in" "en") "nn" "en"
  = Some (Normal [SuggestItem.mk "in" 1 1]).
Proof. apply (lookup_nn_suggests_in None 2 None). lia. Defined.

(** ** Looking up the empty word *)

(** No key of the dictionary is the name of an inherited member: reading
    such a key yields the member, and nothing is ever stored under it. *)
Lemma addWord_not_own self w l :
  (forall k : string, inherited k = true -> dictionary self !! k = None) ->
  forall k : string,
    inherited k = true -> dictionary (addWord self w l) !! k = None.
Proof.
  intros Hself.
  apply (addWord_invariant
           (fun d => forall k : string, inherited k = true -> d !! k = None)
           (fun d => forall k : string, inherited k = true -> d !! k = None));
    try done.
  - intros d Hd k Hk. rewrite lookup_alter. case_decide as Heq.
    + subst k. by rewrite Hd.
    + by apply Hd.
  - intros _ Hi k Hk. rewrite lookup_insert_ne; [by apply Hself | congruence].
  - intros d ps d' _ Hd
      [(e & He & Hc & ->)|[(e & He & Hc & ->)|(He & Hi & ->)]]%register_cases
      k Hk; [by apply Hd|..].
    + rewrite lookup_insert_ne; [by apply Hd|]. intros <-.
      rewrite Hd in He; done.
    + rewrite lookup_insert_ne; [by apply Hd | congruence].
Qed.

Lemma addAll_not_own maxDist md words (k : string) :
  inherited k = true -> dictionary (addAll (new maxDist md) words) !! k = None.
Proof.
  revert k.
  apply (addAll_invariant
           (fun self => forall k : string,
              inherited k = true -> dictionary self !! k = None)).
  - intros k _. apply lookup_empty.
  - intros self w l _. apply addWord_not_own.
Qed.

(** C9: [lookup("", language)] can throw.  Under the language identifier
    "constructor" the key of the empty word is "constructor", which every
    dictionary inherits from [Object.prototype].  Line 166 takes the
    inherited function for an entry, and line 179 reads the length of its
    missing [suggestions]: a [TypeError], on the new engine and after any
    [addWord] calls. *)
Theorem lookup_empty_word_TypeError gm words :
  lookup gm (addAll (new None None) words) "" "constructor" = Some TypeError.
Proof.
  unfold lookup. simpl.
  rewrite addAll_mode, addAll_maxEditDistance. simpl.
  unfold read. by rewrite addAll_not_own.
Qed.

(** The identifier [''] is another way to a suggestion for the empty
    word: [addWord] uses it as it is, [lookup] replaces it by 'und'. *)
Lemma lookup_empty_word_und :
  lookup None (addWord (new None None) "und" "") "" ""
  = Some (Normal [SuggestItem.mk "und" 0 1]).
Proof. vm_compute. done. Qed.

(** A key made from another identifier, or from a non-empty term, differs
    from the bare identifier [L]. *)
Lemma key_not_language (L l t : string) :
  t <> "" -> l = L \/ String.prefix l L = false -> l +:+ t <> L.
Proof.
  intros Ht Hl Hkey. destruct Hl as [-> | Hl].
  - apply Ht, length_zero_empty.
    apply (f_equal String.length) in Hkey. rewrite length_append in Hkey. lia.
  - by rewrite <- Hkey, prefix_append in Hl.
Qed.

Lemma addWord_absent self w l (L : string) :
  w <> "" -> l = L \/ String.prefix l L = false ->
  dictionary self !! L = None ->
  dictionary (addWord self w l) !! L = None.
Proof.
  intros Hw Hl Hself.
  apply (addWord_invariant
           (fun d : gmap string DictionaryItem.t => d !! L = None)
           (fun d : gmap string DictionaryItem.t => d !! L = None)); try done.
  - intros d Hd. rewrite lookup_alter. case_decide as Heq; [|done].
    rewrite Heq. by rewrite Hd.
  - intros _ _. rewrite lookup_insert_ne; [done | by apply key_not_language].
  - intros d ps d' Hps Hd Hr.
    rewrite (register_other _ _ _ _ _ _ _ Hr); [done|].
    apply key_not_language; [|done].
    apply computePermutations_spec in Hps as [Hlen _].
    intros Hnil. rewrite Hnil in Hlen. simpl in Hlen. lia.
Qed.

(** X22: When the dictionary was built by [addWord] calls with non-empty
    words, under language identifiers each of which is either the one
    [lookup] uses ([language || 'und']) or not a prefix of it, and that
    identifier is not the name of a member of [Object.prototype], then
    [lookup("", language)] returns the empty list. *)
Theorem lookup_empty_word gm maxDist md words language :
  inherited (language_or_und language) = false ->
  Forall (fun wl =>
            wl.1 <> ""
            /\ (wl.2 = language_or_und language
                \/ String.prefix wl.2 (language_or_und language) = false))
    words ->
  lookup gm (addAll (new maxDist md) words) "" language = Some (Normal []).
Proof.
  intros Hi Hwords.
  assert (Habsent : dictionary (addAll (new maxDist md) words)
                      !! language_or_und language = None).
  { apply (addAll_invariant
             (fun self => dictionary self !! language_or_und language = None)).
    - apply lookup_empty.
    - intros self w l Hin Hself.
      eapply Forall_forall in Hwords as [Hw Hl]; [|exact Hin].
      by apply addWord_absent. }
  unfold lookup. simpl. rewrite andb_false_r. simpl.
  destruct (maxEditDistance _ <? 0); [done|].
  rewrite append_empty_r, (read_Undefined _ _ Habsent Hi). unfold expand. simpl.
  by destruct (0 <? maxEditDistance _).
Qed.

Lemma lookup_empty_word_witness :
  lookup None
    (addAll (new None None) [("ten", "en"); ("tent", "en"); ("zehn", "de")])
    "" "en" = Some (Normal []).
Proof.
  apply (lookup_empty_word None None None
           [("ten", "en"); ("tent", "en"); ("zehn", "de")] "en").
  - reflexivity.
  - repeat constructor; try done; by right.
Defined.
